(** * MessageThread: the timer scheduler of libtgvoip

    A shallow embedding of [src/3rdparty/libtgvoip/MessageThread.cpp].

    Modelling decisions.
    - [double] timestamps and durations are rationals ([Q]).  The
      comparisons of the source are the boolean comparisons of [Q].  The
      sums and differences of the source (lines 74, 126 and 142 of
      MessageThread.cpp, the pause of [RunThread]) are exact in the model
      where the machine rounds to binary64; infinities and NaN are outside
      the model.  A statement that names such a sum speaks of the value the
      code computes at that line, and no statement says that such a sum is
      exact: what rounding does to line 126 is shown on binary64 itself, in
      [Binary64].
    - [uint32_t] identifiers are [N], the wrap-around of [lastMessageID++]
      is written out.
    - [std::function<void()>] is an optional callback.  A callback reads
      the state captured by the closures (a type [W]) and is a finite
      program of calls back into the scheduler, made on the scheduler's
      own thread ([IsCurrent()] holds, so they take no lock).
      [Stop] and [HardStop] lock [queueMutex] unconditionally, which the
      scheduler thread already holds while a callback runs, so a callback
      has no such call.
    - [assert] is modelled as failure ([None]), as in a debug build.
    - Every public method holds [queueMutex] for its whole body and [Run]
      releases it only inside the blocking wait, so the methods and the
      part of a loop iteration after the wait are atomic steps; a run of
      the system is a sequence of such steps (see [event]).  Lines 73-95
      of [Run] decide only how long the thread sleeps; a wait may end at
      any time, so an iteration may be a step at any time.
    - [VoIPController::GetCurrentTime()] reads the field [now] of the
      model state; the passing of time is a step of its own. *)

From Stdlib Require Import QArith Qminmax Lqa List Bool ZArith NArith PeanoNat Lia
  Sorted Permutation.
From Stdlib Require SpecFloat.
Import ListNotations.

Set Implicit Arguments.
Set Maximal Implicit Insertion.
Set Warnings "-register-all".

(** * Definitions *)

(** ** Comparisons on timestamps *)

Definition Qgtb (a b : Q) : bool := negb (Qle_bool a b).
Definition Qgeb (a b : Q) : bool := Qle_bool b a.

(** ** The error monad of failed assertions *)

Definition bind {A B : Type} (x : option A) (f : A -> option B) : option B :=
  match x with
  | Some a => f a
  | None => None
  end.

Notation "x <- e ;; k" := (bind e (fun x => k))
  (at level 61, e at next level, right associativity).

(** [uint32_t] arithmetic. *)
Definition UINT32_MOD : N := 4294967296.

(** The largest finite [double], (2 - 2^-52) * 2^1023. *)
Definition DBL_MAX : Q := inject_Z (2 ^ 1024 - 2 ^ 971).

Section Scheduler.

(** The state captured by the closures posted to the scheduler. *)
Variable W : Type.

(** ** Callbacks

    What a callback does, as far as the scheduler can tell: it calls
    [Post], [Cancel] and [CancelSelf] on the scheduler, takes time, and
    leaves the captured state changed. *)
Inductive prog : Type :=
| Ret (w : W)
| CallPost (f : option (W -> prog)) (delay interval : Q) (k : N -> prog)
| CallCancel (i : N) (k : prog)
| CallCancelSelf (k : prog)
| Elapse (d : Q) (k : prog).

Definition callback : Type := option (W -> prog).

(** ** Data model *)

(** Modelled from the spec: [struct Message] is declared in MessageThread.h,
    which is not among the sources.  The fields are those the code reads and
    writes, in the order of the initialiser of line 142; [id] is the
    [uint32_t] that [Post] returns and [Cancel] takes. *)
Record Message : Type := mkMessage {
  id : N;
  deliverAt : Q;
  interval : Q;
  func : callback
}.

Definition set_deliverAt (t : Q) (m : Message) : Message :=
  mkMessage (id m) t (interval m) (func m).

(** Modelled from the spec: the fields of [class MessageThread], declared in
    MessageThread.h, which is not among the sources: the two flags, the
    queue, the identifier counter (32 bits wide, as the identifiers are) and
    the self-cancel flag.  The mutex, the condition variable and the thread
    have no state in this model. *)
Record MessageThread : Type := mkMessageThread {
  running : bool;
  hardStopped : bool;
  queue : list Message;
  lastMessageID : N;
  cancelCurrent : bool
}.

(** The scheduler together with what surrounds it: the clock, the state
    captured by the closures, and two observations of the worker thread
    that the proofs speak about: the messages handed to the delivery loop
    so far, each with the [deliverAt] it carries when its callback is
    called, and whether [Run] has returned. *)
Record world : Type := mkWorld {
  mt : MessageThread;
  now : Q;
  env : W;
  delivered : list (Message * Q);
  exited : bool
}.

Definition with_mt (f : MessageThread -> MessageThread) (s : world) : world :=
  mkWorld (f (mt s)) (now s) (env s) (delivered s) (exited s).

Definition set_queue (q : list Message) (t : MessageThread) : MessageThread :=
  mkMessageThread (running t) (hardStopped t) q (lastMessageID t) (cancelCurrent t).

Definition set_cancelCurrent (b : bool) (t : MessageThread) : MessageThread :=
  mkMessageThread (running t) (hardStopped t) (queue t) (lastMessageID t) b.

Definition set_env (w : W) (s : world) : world :=
  mkWorld (mt s) (now s) w (delivered s) (exited s).

Definition set_exited (b : bool) (s : world) : world :=
  mkWorld (mt s) (now s) (env s) (delivered s) b.

Definition advance (d : Q) (s : world) : world :=
  mkWorld (mt s) (now s + d) (env s) (delivered s) (exited s).

Definition record_delivery (m : Message) (t : Q) (s : world) : world :=
  mkWorld (mt s) (now s) (env s) (delivered s ++ [(m, t)]) (exited s).

(** ** MessageThread::HardStop and MessageThread::Stop *)

Definition HardStop (t : MessageThread) : MessageThread :=
  mkMessageThread false true [] (lastMessageID t) (cancelCurrent t).

Definition Stop (t : MessageThread) : MessageThread :=
  mkMessageThread false (hardStopped t) [] (lastMessageID t) (cancelCurrent t).

(** ** MessageThread::InsertMessageInternal *)

(** The [for] loop: the iterator stands on [insertAfter], [rest] is what
    follows it in the vector. *)
Fixpoint insert_scan (insertAfter : Message) (rest : list Message) (m : Message)
  : list Message :=
  match rest with
  | [] => insertAfter :: [m]
  | next :: rest' =>
      if Qgtb (deliverAt next) (deliverAt m)
         && Qle_bool (deliverAt insertAfter) (deliverAt m)
      then insertAfter :: m :: next :: rest'
      else insertAfter :: insert_scan next rest' m
  end.

Definition InsertMessageInternal (q : list Message) (m : Message) : list Message :=
  match q with
  | [] => [m]
  | q0 :: rest =>
      if Qgtb (deliverAt q0) (deliverAt m) then m :: q
      else insert_scan q0 rest m
  end.

(** ** MessageThread::Post *)

(** Line 142: the message built by [Post].  The sum is the one the source
    computes; there it is a sum of [double]s. *)
Definition new_message (f : callback) (delay itv : Q) (s : world) : Message :=
  let currentTime := now s in
  mkMessage (lastMessageID (mt s))
            (if Qeq_bool delay 0 then 0 else currentTime + delay)
            itv f.

Definition Post (f : callback) (delay itv : Q) (s : world) : option (N * world) :=
  if Qgeb delay 0 then
    let m := new_message f delay itv s in
    Some (id m,
          with_mt (fun t =>
            mkMessageThread (running t) (hardStopped t)
                            (InsertMessageInternal (queue t) m)
                            ((lastMessageID t + 1) mod UINT32_MOD)
                            (cancelCurrent t)) s)
  else None.

(** ** MessageThread::Cancel *)

Fixpoint erase_id (i : N) (q : list Message) : list Message :=
  match q with
  | [] => []
  | m :: q' => if N.eqb (id m) i then erase_id i q' else m :: erase_id i q'
  end.

Definition Cancel (i : N) (t : MessageThread) : MessageThread :=
  set_queue (erase_id i (queue t)) t.

(** ** MessageThread::CancelSelf *)

Definition CancelSelf (t : MessageThread) : MessageThread :=
  set_cancelCurrent true t.

(** ** Running a callback on the scheduler thread *)

Fixpoint run_prog (p : prog) (s : world) : option world :=
  match p with
  | Ret w => Some (set_env w s)
  | CallPost f delay itv k =>
      r <- Post f delay itv s ;; run_prog (k (fst r)) (snd r)
  | CallCancel i k => run_prog k (with_mt (Cancel i) s)
  | CallCancelSelf k => run_prog k (with_mt CancelSelf s)
  | Elapse d k => run_prog k (advance d s)
  end.

(** [if(m.func!=nullptr) m.func();] *)
Definition call (f : callback) (s : world) : option world :=
  match f with
  | Some body => run_prog (body (env s)) s
  | None => Some s
  end.

(** ** MessageThread::Run *)

(** Line 104: the message is immediate or its time has come. *)
Definition due (currentTime : Q) (m : Message) : bool :=
  Qeq_bool (deliverAt m) 0 || Qgeb currentTime (deliverAt m).

(** Lines 103-110: the messages that are due leave the queue, in order.
    The result is [msgsToDeliverNow] and what stays in the queue. *)
Fixpoint drain (currentTime : Q) (q : list Message) : list Message * list Message :=
  match q with
  | [] => ([], [])
  | m :: q' =>
      let r := drain currentTime q' in
      if due currentTime m then (m :: fst r, snd r) else (fst r, m :: snd r)
  end.

(** Lines 120-121: an immediate message takes the current time. *)
Definition stamped (m : Message) (s : world) : Message :=
  if Qeq_bool (deliverAt m) 0 then set_deliverAt (now s) m else m.

(** The state in which the callback of [m] is called: line 119 has cleared
    the self-cancel flag. *)
Definition before_callback (m : Message) (s : world) : world :=
  record_delivery m (deliverAt (stamped m s))
                  (with_mt (set_cancelCurrent false) s).

(** Line 126: the message that goes back into the queue.  The sum is the
    one the source computes; there it is a sum of [double]s. *)
Definition repeated (m : Message) (s : world) : Message :=
  set_deliverAt (deliverAt (stamped m s) + interval m) (stamped m s).

Definition reinsert (m : Message) (s : world) : world :=
  with_mt (fun t => set_queue (InsertMessageInternal (queue t) m) t) s.

(** Lines 119-128: the body of the delivery loop for one message. *)
Definition deliver_message (m : Message) (s : world) : option world :=
  s' <- call (func (stamped m s)) (before_callback m s) ;;
  if negb (cancelCurrent (mt s')) && Qgtb (interval (stamped m s)) 0
  then Some (reinsert (repeated m s) s')
  else Some s'.

(** Lines 118-129. *)
Fixpoint deliver_batch (msgsToDeliverNow : list Message) (s : world) : option world :=
  match msgsToDeliverNow with
  | [] => Some s
  | m :: rest => s' <- deliver_message m s ;; deliver_batch rest s'
  end.

Inductive loop_exit : Type := Continue | Break.

(** The queue once the messages that are due have left it. *)
Definition drained (s : world) : world :=
  with_mt (set_queue (snd (drain (now s) (queue (mt s))))) s.

(** Lines 97-129: one iteration of the loop, from the return of the wait. *)
Definition Run_body (s : world) : option (loop_exit * world) :=
  if negb (running (mt s)) then Some (Break, s)
  else
    let currentTime := now s in
    let msgsToDeliverNow := fst (drain currentTime (queue (mt s))) in
    let s := drained s in
    if hardStopped (mt s) then Some (Break, s)
    else s' <- deliver_batch msgsToDeliverNow s ;; Some (Continue, s').

(** One pass through [while(running)]: the test of line 72, the wait
    (during which time passes and the other threads act: these are steps
    of their own), then lines 97-129.  Once the loop is left, [Run] has
    returned and the worker does nothing more. *)
Definition Run_iteration (s : world) : option world :=
  if exited s then Some s
  else if running (mt s) then
    r <- Run_body s ;;
    match fst r with
    | Continue => Some (snd r)
    | Break => Some (set_exited true (snd r))
    end
  else Some (set_exited true s).

(** ** Runs of the system *)

Inductive event : Type :=
| EvPost (f : callback) (delay itv : Q)
| EvCancel (i : N)
| EvStop
| EvHardStop
| EvElapse (d : Q)
| EvRun.

Definition step (e : event) (s : world) : option world :=
  match e with
  | EvPost f delay itv => r <- Post f delay itv s ;; Some (snd r)
  | EvCancel i => Some (with_mt (Cancel i) s)
  | EvStop => Some (with_mt Stop s)
  | EvHardStop => Some (with_mt HardStop s)
  | EvElapse d => Some (advance d s)
  | EvRun => Run_iteration s
  end.

Fixpoint exec (evs : list event) (s : world) : option world :=
  match evs with
  | [] => Some s
  | e :: evs' => s' <- step e s ;; exec evs' s'
  end.

(** A sequence of calls of [Post]; before each call some time passes. *)
Record post_call : Type := mkPostCall {
  pc_after : Q;
  pc_func : callback;
  pc_delay : Q;
  pc_interval : Q
}.

(** The identifiers returned by the calls, and the state they leave. *)
Fixpoint post_seq (ps : list post_call) (s : world) : option (list N * world) :=
  match ps with
  | [] => Some ([], s)
  | c :: ps' =>
      r <- Post (pc_func c) (pc_delay c) (pc_interval c) (advance (pc_after c) s) ;;
      r' <- post_seq ps' (snd r) ;;
      Some (fst r :: fst r', snd r')
  end.

(** The messages the calls build, in the order of the calls. *)
Fixpoint posted (ps : list post_call) (s : world) : list Message :=
  match ps with
  | [] => []
  | c :: ps' =>
      let s1 := advance (pc_after c) s in
      new_message (pc_func c) (pc_delay c) (pc_interval c) s1 ::
      match Post (pc_func c) (pc_delay c) (pc_interval c) s1 with
      | Some r => posted ps' (snd r)
      | None => []
      end
  end.

(** The queue after [InsertMessageInternal] has been called on each message
    of [msgs] in turn. *)
Definition insert_all (msgs : list Message) (q : list Message) : list Message :=
  fold_left (fun acc m => InsertMessageInternal acc m) msgs q.

(** ** Notions used in the statements *)

Definition before (a b : Message) : Prop := deliverAt a <= deliverAt b.

(** Sorted ascending by [deliverAt]. *)
Definition ascending (q : list Message) : Prop := StronglySorted before q.

(** The messages of [q] that carry the timestamp [k], in their order. *)
Definition with_key (k : Q) (q : list Message) : list Message :=
  filter (fun x => Qeq_bool (deliverAt x) k) q.

(** The place [InsertMessageInternal] chooses, said directly: in front of the
    first message that is strictly later than [m]. *)
Fixpoint place (m : Message) (q : list Message) : list Message :=
  match q with
  | [] => [m]
  | x :: q' => if Qgtb (deliverAt x) (deliverAt m) then m :: q else x :: place m q'
  end.

(** No assertion of [Post] fails while the callback runs. *)
Inductive safe : prog -> Prop :=
| safe_Ret w : safe (Ret w)
| safe_CallPost f delay itv k :
    0 <= delay -> (forall i, safe (k i)) -> safe (CallPost f delay itv k)
| safe_CallCancel i k : safe k -> safe (CallCancel i k)
| safe_CallCancelSelf k : safe k -> safe (CallCancelSelf k)
| safe_Elapse d k : safe k -> safe (Elapse d k).

Definition safe_callback (f : callback) : Prop :=
  forall body, f = Some body -> forall w, safe (body w).

(** The callback never calls [CancelSelf]. *)
Inductive no_CancelSelf : prog -> Prop :=
| ncs_Ret w : no_CancelSelf (Ret w)
| ncs_CallPost f delay itv k :
    (forall i, no_CancelSelf (k i)) -> no_CancelSelf (CallPost f delay itv k)
| ncs_CallCancel i k : no_CancelSelf k -> no_CancelSelf (CallCancel i k)
| ncs_Elapse d k : no_CancelSelf k -> no_CancelSelf (Elapse d k).

(** The callback calls [CancelSelf], whatever [Post] returns to it. *)
Inductive calls_CancelSelf : prog -> Prop :=
| ccs_CallCancelSelf k : calls_CancelSelf (CallCancelSelf k)
| ccs_CallPost f delay itv k :
    (forall i, calls_CancelSelf (k i)) -> calls_CancelSelf (CallPost f delay itv k)
| ccs_CallCancel i k : calls_CancelSelf k -> calls_CancelSelf (CallCancel i k)
| ccs_Elapse d k : calls_CancelSelf k -> calls_CancelSelf (Elapse d k).

(** The callback with its calls of [Cancel(i)] taken out. *)
Fixpoint without_Cancel (i : N) (p : prog) : prog :=
  match p with
  | Ret w => Ret w
  | CallPost f delay itv k => CallPost f delay itv (fun j => without_Cancel i (k j))
  | CallCancel j k =>
      if N.eqb j i then without_Cancel i k else CallCancel j (without_Cancel i k)
  | CallCancelSelf k => CallCancelSelf (without_Cancel i k)
  | Elapse d k => Elapse d (without_Cancel i k)
  end.

(** Every call of [Cancel(i)] that the callback makes, started in [s],
    leaves the queue as it finds it. *)
Fixpoint cancels_remove_nothing (i : N) (p : prog) (s : world) : Prop :=
  match p with
  | Ret _ => True
  | CallPost f delay itv k =>
      match Post f delay itv s with
      | Some r => cancels_remove_nothing i (k (fst r)) (snd r)
      | None => True
      end
  | CallCancel j k =>
      (j = i -> queue (Cancel j (mt s)) = queue (mt s)) /\
      cancels_remove_nothing i k (with_mt (Cancel j) s)
  | CallCancelSelf k => cancels_remove_nothing i k (with_mt CancelSelf s)
  | Elapse d k => cancels_remove_nothing i k (advance d s)
  end.

(** The callback calls [Post] at most [n] times, whatever [Post] returns to
    it. *)
Inductive at_most_posts : nat -> prog -> Prop :=
| amp_Ret n w : at_most_posts n (Ret w)
| amp_CallPost n f delay itv k :
    (forall j, at_most_posts n (k j)) -> at_most_posts (S n) (CallPost f delay itv k)
| amp_CallCancel n i k : at_most_posts n k -> at_most_posts n (CallCancel i k)
| amp_CallCancelSelf n k : at_most_posts n k -> at_most_posts n (CallCancelSelf k)
| amp_Elapse n d k : at_most_posts n k -> at_most_posts n (Elapse d k).

Definition posts_at_most (n : nat) (f : callback) : Prop :=
  forall body, f = Some body -> forall w, at_most_posts n (body w).

(** The worker is the only thread that acts: time passes and the loop
    iterates. *)
Definition worker_only (e : event) : Prop :=
  match e with
  | EvElapse _ | EvRun => True
  | _ => False
  end.

(** ** The wait of MessageThread::Run

    Lines 74-88: [waitTimeout] is [DBL_MAX] for an empty queue and the time
    to the first message otherwise; the thread does not wait when it is not
    positive, waits without a timeout when it is [DBL_MAX], and with the
    timeout otherwise. *)
Inductive wait : Type :=
| NoWait
| WaitFor (waitTimeout : Q)
| WaitForever.

Definition wait_decision (currentTime : Q) (q : list Message) : wait :=
  let waitTimeout :=
    match q with
    | [] => DBL_MAX
    | q0 :: _ => deliverAt q0 - currentTime
    end in
  if Qgtb waitTimeout 0 then
    if negb (Qeq_bool waitTimeout DBL_MAX) then WaitFor waitTimeout
    else WaitForever
  else NoWait.

(** ** More notions used in the statements *)

(** The callback never calls [Post]. *)
Inductive quiet : prog -> Prop :=
| quiet_Ret w : quiet (Ret w)
| quiet_CallCancel i k : quiet k -> quiet (CallCancel i k)
| quiet_CallCancelSelf k : quiet k -> quiet (CallCancelSelf k)
| quiet_Elapse d k : quiet k -> quiet (Elapse d k).

Definition quiet_callback (f : callback) : Prop :=
  forall body, f = Some body -> forall w, quiet (body w).

(** The calls of [Post] in a run made by other threads, and their callbacks. *)
Fixpoint posts (evs : list event) : nat :=
  match evs with
  | [] => 0
  | EvPost _ _ _ :: evs' => S (posts evs')
  | _ :: evs' => posts evs'
  end.

Definition quiet_event (e : event) : Prop :=
  match e with
  | EvPost f _ _ => quiet_callback f
  | _ => True
  end.

(** The messages [l] under the counter value [c]: their ids are distinct,
    were handed out before [c], none is in [avoid], whose members were
    handed out before [c] too, and their callbacks never post. *)
Definition tidy (avoid : N -> Prop) (c : N) (l : list Message) : Prop :=
  NoDup (map id l) /\
  Forall (fun m => (id m < c)%N /\ ~ avoid (id m) /\ quiet_callback (func m)) l /\
  (forall i, avoid i -> (i < c)%N).

(** The part of the state that a delivery leaves alone. *)
Definition same_frame (s s' : world) : Prop :=
  lastMessageID (mt s') = lastMessageID (mt s) /\
  running (mt s') = running (mt s) /\
  hardStopped (mt s') = hardStopped (mt s) /\
  exited s' = exited s.

End Scheduler.

Arguments Ret {W} w.
Arguments CallPost {W} f delay interval k.
Arguments CallCancel {W} i k.
Arguments CallCancelSelf {W} k.
Arguments Elapse {W} d k.
Arguments EvPost {W} f delay itv.
Arguments EvCancel {W} i.
Arguments EvStop {W}.
Arguments EvHardStop {W}.
Arguments EvElapse {W} d.
Arguments EvRun {W}.

(** A callback that counts its calls in the captured state and calls
    [CancelSelf] during call number [n]. *)
Definition cancel_self_at (n : nat) : callback nat :=
  Some (fun calls =>
          if Nat.eqb (S calls) n then CallCancelSelf (Ret (S calls))
          else Ret (S calls)).

(** The repeating message that carries this callback. *)
Definition repeating (n : nat) (i : N) (itv d : Q) : Message nat :=
  mkMessage i d itv (cancel_self_at n).

(** What holds of the scheduler while that message is its only one: the
    callback has run [env s] times, each run is on record, and the message
    is in the queue until run number [n] and gone from then on. *)
Definition self_cancel_inv (n : nat) (i : N) (itv : Q)
    (base : list (Message nat * Q)) (s : world nat) : Prop :=
  hardStopped (mt s) = false /\
  (exists log, delivered s = base ++ log /\ length log = env s /\
               Forall (fun e => id (fst e) = i) log) /\
  (((env s < n)%nat /\ exists d, queue (mt s) = [repeating n i itv d]) \/
   (env s = n /\ queue (mt s) = [])).

(** ** Concrete schedulers

    A scheduler that is running, with an empty queue and its counter at 1,
    at time 0 of the clock. *)
Definition fresh (W : Type) (w : W) : world W :=
  mkWorld (mkMessageThread true false [] 1 false) 0 w [] false.

(** A callback that leaves its mark [n] in the captured state, a list of
    the marks left so far. *)
Definition note (n : nat) : callback (list nat) :=
  Some (fun marks => Ret (marks ++ [n])).

(** At time 100 a message is posted with delay 1; at time 102, before the
    worker has looked at the queue again, a message is posted with delay 0. *)
Definition late_then_immediate : list (post_call (list nat)) :=
  [mkPostCall 100 (note 1) 1 0; mkPostCall 2 (note 2) 0 0].

(** The counter of a scheduler that has handed out 2^32 - 2 identifiers. *)
Definition about_to_wrap : world (list nat) :=
  mkWorld (mkMessageThread true false [] 4294967295 false) 0 [] [] false.

(** A repeating message that was due at time 5, found in the batch at time
    6; its callback takes 3 units of time. *)
Definition every_two : Message (list nat) :=
  mkMessage 1 5 2 (Some (fun marks => Elapse 3 (Ret (marks ++ [1%nat])))).

Definition at_six : world (list nat) :=
  mkWorld (mkMessageThread true false [] 2 false) 6 [] [] false.

(** The window the hard-stop flag is there for: the flag is set while the
    loop still believes it is running, and a message is due. *)
Definition hard_stopped_in_flight : world (list nat) :=
  mkWorld (mkMessageThread true true [mkMessage 1 0 0 (note 1)] 2 false)
          0 [] [] false.

(** A stopped scheduler to which a message has been posted afterwards. *)
Definition stopped_then_posted : world (list nat) :=
  mkWorld (mkMessageThread false false [mkMessage 1 0 0 (note 1)] 2 false)
          0 [] [] false.

(** A repeating immediate message whose callback posts a message, cancels
    the id of its own message, takes some time and cancels that id again. *)
Definition cancels_own_id : Message (list nat) :=
  mkMessage 2 0 1
    (Some (fun marks =>
             CallPost (note 3) 5 0 (fun _ =>
             CallCancel 2 (Elapse 1 (CallCancel 2 (Ret (marks ++ [2%nat]))))))).

(** It is the second of two repeating messages that are due together. *)
Definition with_cancels_own_id : world (list nat) :=
  mkWorld (mkMessageThread true false
             [mkMessage 1 0 1 (note 1); cancels_own_id] 3 false)
          0 [] [] false.

(** A scheduler at time 100 with one message, due at 101, in its queue. *)
Definition one_queued : world (list nat) :=
  mkWorld (mkMessageThread true false [mkMessage 1 101 0 (note 1)] 2 false)
          100 [] [] false.

(** A sorted queue: an immediate message and two timed ones. *)
Definition three_queued : list (Message (list nat)) :=
  [mkMessage 2 0 0 (note 2); mkMessage 1 101 0 (note 1); mkMessage 3 200 0 (note 3)].

(** * AudioIOCallback.cpp

    The two workers own a [Thread]; what they do with it is recorded as the
    calls they make on it.  The pointer [thread] is a boolean: set by the
    constructor, cleared by the destructor. *)

Inductive thread_call : Type := ThreadStart | ThreadJoin.

(** Whether the thread runs after the calls, given whether it ran before. *)
Fixpoint thread_alive (alive : bool) (calls : list thread_call) : bool :=
  match calls with
  | [] => alive
  | ThreadStart :: calls' => thread_alive true calls'
  | ThreadJoin :: calls' => thread_alive false calls'
  end.

(** The thread is started only when it does not run and joined only when
    it does. *)
Fixpoint alternates (alive : bool) (calls : list thread_call) : bool :=
  match calls with
  | [] => true
  | ThreadStart :: calls' => negb alive && alternates true calls'
  | ThreadJoin :: calls' => alive && alternates false calls'
  end.

(** The thread is never started while it runs. *)
Fixpoint starts_when_dead (alive : bool) (calls : list thread_call) : bool :=
  match calls with
  | [] => true
  | ThreadStart :: calls' => negb alive && starts_when_dead true calls'
  | ThreadJoin :: calls' => starts_when_dead false calls'
  end.

Inductive audio_op : Type := OpStart | OpStop.

Module AudioInputCallback.

Record state : Type := mk {
  running : bool;
  recording : bool;
  thread : bool
}.

(** Lines 32-37. *)
Definition create : state := mk false false true.

(** Lines 50-56. *)
Definition Start (a : state) : state * list thread_call :=
  let r :=
    if negb (running a) then (mk true (recording a) (thread a), [ThreadStart])
    else (a, []) in
  (mk (running (fst r)) true (thread (fst r)), snd r).

(** Lines 60-68. *)
Definition Stop (a : state) : state * list thread_call :=
  if negb (running a) then (a, [])
  else
    let a := mk false false (thread a) in
    if thread a then (a, [ThreadJoin]) else (a, []).

(** Lines 39-48. *)
Definition destroy (a : state) : state * list thread_call :=
  let a := mk false false (thread a) in
  if thread a then (mk (running a) (recording a) false, [ThreadJoin])
  else (a, []).

Definition apply (o : audio_op) (a : state) : state * list thread_call :=
  match o with
  | OpStart => Start a
  | OpStop => Stop a
  end.

(** A sequence of calls, with all the calls made on the thread. *)
Fixpoint run (ops : list audio_op) (a : state) : state * list thread_call :=
  match ops with
  | [] => (a, [])
  | o :: ops' =>
      let r := apply o a in
      let r' := run ops' (fst r) in
      (fst r', snd r ++ snd r')
  end.

End AudioInputCallback.

Module AudioOutputCallback.

Record state : Type := mk {
  running : bool;
  playing : bool;
  thread : bool
}.

(** Lines 103-108. *)
Definition create : state := mk false false true.

(** Lines 120-126. *)
Definition Start (a : state) : state * list thread_call :=
  let r :=
    if negb (running a) then (mk true (playing a) (thread a), [ThreadStart])
    else (a, []) in
  (mk (running (fst r)) true (thread (fst r)), snd r).

(** Lines 130-138. *)
Definition Stop (a : state) : state * list thread_call :=
  if negb (running a) then (a, [])
  else
    let a := mk false false (thread a) in
    if thread a then (a, [ThreadJoin]) else (a, []).

(** Lines 140-142. *)
Definition IsPlaying (a : state) : bool := playing a.

(** Lines 110-118. *)
Definition destroy (a : state) : state * list thread_call :=
  let a := mk false false (thread a) in
  if thread a then (mk (running a) (playing a) false, [ThreadJoin])
  else (a, []).

Definition apply (o : audio_op) (a : state) : state * list thread_call :=
  match o with
  | OpStart => Start a
  | OpStop => Stop a
  end.

Fixpoint run (ops : list audio_op) (a : state) : state * list thread_call :=
  match ops with
  | [] => (a, [])
  | o :: ops' =>
      let r := apply o a in
      let r' := run ops' (fst r) in
      (fst r', snd r ++ snd r')
  end.

End AudioOutputCallback.

(** ** The pause between two frames

    [RunThread] of both workers, lines 89-97 and 163-171.  A frame lasts
    0.02; what is left of it after the work is slept in steps of at most
    0.005, and [running] is read before each step: [running_at k] is what
    read number [k] of the flag finds.  The result is the list of the
    arguments of [Thread::Sleep].  The subtractions are exact here; the
    machine computes with the [double]s nearest to 0.02 and 0.005 and
    rounds each difference. *)
Definition frame_rest (t t_after : Q) : Q := (2 # 100) - (t_after - t).

Definition sleep_step : Q := 5 # 1000.

Fixpoint sleep_loop (fuel : nat) (running_at : nat -> bool) (k : nat) (sl : Q)
  : option (list Q) :=
  match fuel with
  | O => None
  | S fuel' =>
      if Qgtb sl 0 && running_at k then
        match sleep_loop fuel' running_at (S k) (sl - sleep_step) with
        | Some sleeps => Some (Qmin sl sleep_step :: sleeps)
        | None => None
        end
      else Some []
  end.

Definition frame_pause (fuel : nat) (running_at : nat -> bool) (sl : Q)
  : option (list Q) :=
  if Qgtb sl 0 then sleep_loop fuel running_at 0 sl else Some [].

(** The time slept in all. *)
Definition total (sleeps : list Q) : Q := fold_right Qplus 0 sleeps.

(** * The [double]s of the source

    IEEE 754 binary64 as the Standard Library specifies it ([SpecFloat]):
    53 bits of precision, rounding to nearest, ties to even.  The model of
    the scheduler computes with exact rationals; this is the arithmetic in
    which the machine computes the same lines. *)
Module Binary64.

Definition double : Type := SpecFloat.spec_float.

Definition prec : Z := 53.
Definition emax : Z := 1024.

Definition add (x y : double) : double := SpecFloat.SFadd prec emax x y.
Definition sub (x y : double) : double := SpecFloat.SFsub prec emax x y.
Definition div (x y : double) : double := SpecFloat.SFdiv prec emax x y.
Definition eqb (x y : double) : bool := SpecFloat.SFeqb x y.

(** The [double] of an integer. *)
Definition of_Z (z : Z) : double := SpecFloat.binary_normalize prec emax z 0 false.

(** The [double] that a decimal literal of the source stands for: the
    quotient of two integers, rounded once. *)
Definition literal (n d : Z) : double := div (of_Z n) (of_Z d).

(** The rational that a finite [double] is. *)
Definition value (x : double) : Q :=
  match x with
  | SpecFloat.S754_finite s m e =>
      let z := if s then Z.neg m else Z.pos m in
      if (0 <=? e)%Z then inject_Z (z * 2 ^ e)
      else Qmake z (Pos.pow 2 (Z.to_pos (- e)))
  | _ => 0
  end.

(** MessageThread::Run, line 126: [m.deliverAt+=m.interval]. *)
Definition repeated_deliverAt (deliverAt interval : double) : double :=
  add deliverAt interval.

End Binary64.

(** * Properties *)

(** ** Booleans and the monad *)

Lemma Qgtb_true (a b : Q) : Qgtb a b = true <-> b < a.
Proof.
  unfold Qgtb. rewrite negb_true_iff. split; intros H.
  - apply Qnot_le_lt. intros Hle. apply Qle_bool_iff in Hle. congruence.
  - destruct (Qle_bool a b) eqn:E; [|reflexivity].
    apply Qle_bool_iff in E. lra.
Qed.

Lemma Qgtb_false (a b : Q) : Qgtb a b = false <-> a <= b.
Proof.
  unfold Qgtb. rewrite negb_false_iff. apply Qle_bool_iff.
Qed.

Lemma Qgeb_true (a b : Q) : Qgeb a b = true <-> b <= a.
Proof. unfold Qgeb. apply Qle_bool_iff. Qed.

Lemma bind_Some {A B : Type} (x : option A) (f : A -> option B) (b : B) :
  bind x f = Some b <-> exists a, x = Some a /\ f a = Some b.
Proof.
  destruct x as [a|]; simpl; split.
  - intros H. exists a. auto.
  - intros [a' [Ha Hf]]. inversion Ha. subst. exact Hf.
  - discriminate.
  - intros [a' [Ha _]]. discriminate.
Qed.

(** ** The order of the queue *)

Section Order.

Variable W : Type.
Implicit Types (m x a b c : Message W) (q l : list (Message W)) (s : world W).

Lemma insert_scan_place m : forall q a,
  deliverAt a <= deliverAt m ->
  insert_scan a q m = a :: place m q.
Proof.
  induction q as [|next q IH]; intros a Ha; simpl.
  - reflexivity.
  - apply Qle_bool_iff in Ha. rewrite Ha, andb_true_r.
    destruct (Qgtb (deliverAt next) (deliverAt m)) eqn:E.
    + reflexivity.
    + rewrite IH; [reflexivity | now apply Qgtb_false].
Qed.

Lemma InsertMessageInternal_place q m : InsertMessageInternal q m = place m q.
Proof.
  destruct q as [|q0 rest]; simpl.
  - reflexivity.
  - destruct (Qgtb (deliverAt q0) (deliverAt m)) eqn:E.
    + reflexivity.
    + apply insert_scan_place. now apply Qgtb_false.
Qed.

(** [place] cuts the queue in two and puts [m] at the cut. *)
Lemma place_split m : forall q,
  exists l1 l2,
    q = l1 ++ l2 /\ place m q = l1 ++ m :: l2 /\
    Forall (fun x => deliverAt x <= deliverAt m) l1 /\
    (forall x, hd_error l2 = Some x -> deliverAt m < deliverAt x).
Proof.
  induction q as [|x q IH]; simpl.
  - exists [], []. repeat split; auto. simpl. discriminate.
  - destruct (Qgtb (deliverAt x) (deliverAt m)) eqn:E.
    + exists [], (x :: q). repeat split; auto.
      simpl. intros y Hy. inversion Hy; subst. now apply Qgtb_true.
    + destruct IH as (l1 & l2 & Hq & Hp & Hle & Hgt).
      exists (x :: l1), l2. simpl. rewrite Hp, Hq at 1.
      repeat split; auto. constructor; auto. now apply Qgtb_false.
Qed.

Lemma ascending_app_inv l1 l2 :
  ascending (l1 ++ l2) ->
  ascending l1 /\ ascending l2 /\
  forall a b, In a l1 -> In b l2 -> before a b.
Proof.
  unfold ascending. induction l1 as [|x l1 IH]; simpl; intros H.
  - repeat split; auto. constructor. intros a b [].
  - inversion H as [|? ? Hs Hall]; subst.
    destruct (IH Hs) as (H1 & H2 & H12).
    rewrite Forall_app in Hall. destruct Hall as [Ha1 Ha2].
    repeat split; auto.
    + constructor; auto.
    + intros a b [Ha|Ha] Hb.
      * subst. rewrite Forall_forall in Ha2. auto.
      * auto.
Qed.

Lemma ascending_app l1 l2 :
  ascending l1 -> ascending l2 ->
  (forall a b, In a l1 -> In b l2 -> before a b) ->
  ascending (l1 ++ l2).
Proof.
  unfold ascending. induction l1 as [|x l1 IH]; simpl; intros H1 H2 H12.
  - exact H2.
  - inversion H1 as [|? ? Hs Hall]; subst. constructor.
    + apply IH; auto.
    + apply Forall_app. split; auto.
      apply Forall_forall. intros b Hb. apply H12; auto.
Qed.

Lemma place_ascending m q : ascending q -> ascending (place m q).
Proof.
  intros Hq. destruct (place_split m q) as (l1 & l2 & Hsplit & Hp & Hle & Hgt).
  rewrite Hp. subst q.
  destruct (ascending_app_inv _ _ Hq) as (H1 & H2 & H12).
  assert (Hl2 : Forall (before m) l2).
  { destruct l2 as [|y l2]; constructor.
    - unfold before. specialize (Hgt y eq_refl). lra.
    - inversion H2; subst. specialize (Hgt y eq_refl).
      eapply Forall_impl; [|eassumption].
      unfold before. intros z Hz. lra. }
  apply ascending_app; auto.
  - constructor; auto.
  - intros a b Ha [Hb|Hb].
    + subst. rewrite Forall_forall in Hle. apply Hle; auto.
    + auto.
Qed.

Lemma InsertMessageInternal_ascending q m :
  ascending q -> ascending (InsertMessageInternal q m).
Proof. rewrite InsertMessageInternal_place. apply place_ascending. Qed.

Lemma with_key_app k l1 l2 : with_key k (l1 ++ l2) = with_key k l1 ++ with_key k l2.
Proof. apply filter_app. Qed.

Lemma with_key_later k q :
  Forall (fun x => k < deliverAt x) q -> with_key k q = [].
Proof.
  induction 1 as [|x q Hx _ IH]; simpl; auto.
  destruct (Qeq_bool (deliverAt x) k) eqn:E; auto.
  apply Qeq_bool_iff in E. lra.
Qed.

(** Insertion is stable: among the messages of one timestamp the new one is
    the last. *)
Lemma place_stable m k : forall q,
  ascending q -> with_key k (place m q) = with_key k (q ++ [m]).
Proof.
  induction q as [|x q IH]; intros Hq.
  - reflexivity.
  - inversion Hq as [|? ? Hs Hall]; subst. cbn [place].
    destruct (Qgtb (deliverAt x) (deliverAt m)) eqn:E.
    + apply Qgtb_true in E.
      rewrite with_key_app.
      change (m :: x :: q) with ([m] ++ x :: q). rewrite with_key_app.
      assert (Hm : with_key k [m] = [m] \/ with_key k [m] = []).
      { unfold with_key. simpl. destruct (Qeq_bool (deliverAt m) k); auto. }
      destruct (Qeq_bool (deliverAt m) k) eqn:Ek.
      * apply Qeq_bool_iff in Ek.
        rewrite (@with_key_later k (x :: q)); [now rewrite app_nil_r|].
        constructor; [lra|].
        eapply Forall_impl; [|exact Hall]. unfold before. intros z Hz. lra.
      * unfold with_key at 1 4. simpl. rewrite Ek. now rewrite app_nil_r.
    + change ((x :: q) ++ [m]) with ([x] ++ (q ++ [m])).
      change (x :: place m q) with ([x] ++ place m q).
      rewrite !with_key_app, (IH Hs), with_key_app. reflexivity.
Qed.

Lemma erase_id_filter i q :
  erase_id i q = filter (fun x => negb (N.eqb (id x) i)) q.
Proof.
  induction q as [|x q IH]; simpl; auto.
  destruct (N.eqb (id x) i); simpl; congruence.
Qed.

Lemma ascending_filter (f : Message W -> bool) q :
  ascending q -> ascending (filter f q).
Proof.
  unfold ascending. induction 1 as [|x q Hs IH Hall]; simpl.
  - constructor.
  - destruct (f x); auto. constructor; auto.
    rewrite Forall_forall in *. intros y Hy. apply filter_In in Hy. apply Hall, Hy.
Qed.

Lemma drain_filter t q :
  drain t q = (filter (due t) q, filter (fun x => negb (due t x)) q).
Proof.
  induction q as [|x q IH]; simpl; auto.
  rewrite IH. simpl. destruct (due t x); reflexivity.
Qed.

Lemma with_key_filter k (f : Message W -> bool) q :
  with_key k (filter f q) = filter f (with_key k q).
Proof.
  unfold with_key. induction q as [|x q IH]; simpl; auto.
  destruct (f x) eqn:Ef, (Qeq_bool (deliverAt x) k) eqn:Ek; simpl;
    rewrite ?Ef, ?Ek; congruence.
Qed.

End Order.

(** ** What the operations keep *)

Lemma Post_Some (W : Type) (f : callback W) (delay itv : Q) (s : world W) :
  0 <= delay ->
  Post f delay itv s =
  Some (lastMessageID (mt s),
        with_mt (fun t =>
          mkMessageThread (running t) (hardStopped t)
            (InsertMessageInternal (queue t) (new_message f delay itv s))
            ((lastMessageID t + 1) mod UINT32_MOD) (cancelCurrent t)) s).
Proof.
  intros H. unfold Post. apply Qgeb_true in H. rewrite H. reflexivity.
Qed.

Lemma Post_inv (W : Type) (f : callback W) (delay itv : Q) (s : world W) r :
  Post f delay itv s = Some r ->
  0 <= delay /\
  r = (lastMessageID (mt s),
       with_mt (fun t =>
         mkMessageThread (running t) (hardStopped t)
           (InsertMessageInternal (queue t) (new_message f delay itv s))
           ((lastMessageID t + 1) mod UINT32_MOD) (cancelCurrent t)) s).
Proof.
  unfold Post. destruct (Qgeb delay 0) eqn:E; [|discriminate].
  intros H. inversion H. split; [now apply Qgeb_true | reflexivity].
Qed.

(** A successful call of [Post] is replaced by the state it leaves. *)
Ltac invert_Post H := apply Post_inv in H; destruct H as [_ ->].

Section Frames.

Variable W : Type.
Implicit Types (m : Message W) (q : list (Message W)) (s : world W)
  (p : prog W) (f : callback W).

(** A property of the state that the calls a callback can make all keep is
    kept by the callback. *)
Lemma run_prog_keeps (P : world W -> Prop) :
  (forall s w, P s -> P (set_env w s)) ->
  (forall s d, P s -> P (advance d s)) ->
  (forall s i, P s -> P (with_mt (@Cancel W i) s)) ->
  (forall s, P s -> P (with_mt (@CancelSelf W) s)) ->
  (forall s f delay itv r, P s -> Post f delay itv s = Some r -> P (snd r)) ->
  forall p s s', P s -> run_prog p s = Some s' -> P s'.
Proof.
  intros Henv Hadv Hcancel Hself Hpost.
  induction p as [w|f delay itv k IH|i k IH|k IH|d k IH]; simpl; intros s s' Hs Hrun.
  - inversion Hrun. auto.
  - apply bind_Some in Hrun. destruct Hrun as (r & Hr & Hk).
    eapply IH; [|exact Hk]. eapply Hpost; eauto.
  - eapply IH; [|exact Hrun]. auto.
  - eapply IH; [|exact Hrun]. auto.
  - eapply IH; [|exact Hrun]. auto.
Qed.

Lemma run_prog_delivered p s s' :
  run_prog p s = Some s' -> delivered s' = delivered s.
Proof.
  apply (@run_prog_keeps (fun x => delivered x = delivered s)); auto.
  intros x f delay itv r Hx Hr. invert_Post Hr. exact Hx.
Qed.

Lemma run_prog_ascending p s s' :
  ascending (queue (mt s)) -> run_prog p s = Some s' -> ascending (queue (mt s')).
Proof.
  apply (@run_prog_keeps (fun x => ascending (queue (mt x)))); auto.
  - intros x i Hx. simpl. rewrite erase_id_filter. now apply ascending_filter.
  - intros x f delay itv r Hx Hr. invert_Post Hr.
    simpl. now apply InsertMessageInternal_ascending.
Qed.

Lemma run_prog_safe p : safe p -> forall s, exists s', run_prog p s = Some s'.
Proof.
  induction 1 as [w|f delay itv k Hd Hk IH|i k Hk IH|k Hk IH|d k Hk IH];
    intros s; simpl; eauto.
  rewrite (Post_Some _ _ _ Hd). simpl. apply IH.
Qed.

Lemma run_prog_no_CancelSelf p :
  no_CancelSelf p ->
  forall s s', run_prog p s = Some s' ->
               cancelCurrent (mt s') = cancelCurrent (mt s).
Proof.
  induction 1 as [w|f delay itv k Hk IH|i k Hk IH|d k Hk IH];
    simpl; intros s s' Hrun.
  - inversion Hrun. reflexivity.
  - apply bind_Some in Hrun. destruct Hrun as (r & Hr & Hrun).
    invert_Post Hr.
    apply IH in Hrun. exact Hrun.
  - apply IH in Hrun. exact Hrun.
  - apply IH in Hrun. exact Hrun.
Qed.

Lemma call_safe f s : safe_callback f -> exists s', call f s = Some s'.
Proof.
  intros Hf. destruct f as [body|]; simpl; eauto.
  apply run_prog_safe. now apply Hf.
Qed.

Lemma call_delivered f s s' : call f s = Some s' -> delivered s' = delivered s.
Proof.
  destruct f; simpl.
  - apply run_prog_delivered.
  - intros H. inversion H. reflexivity.
Qed.

Lemma call_ascending f s s' :
  ascending (queue (mt s)) -> call f s = Some s' -> ascending (queue (mt s')).
Proof.
  destruct f; simpl.
  - apply run_prog_ascending.
  - intros Hs H. inversion H. subst. exact Hs.
Qed.

Lemma func_stamped m s : func (stamped m s) = func m.
Proof. unfold stamped. destruct (Qeq_bool (deliverAt m) 0); reflexivity. Qed.

Lemma interval_stamped m s : interval (stamped m s) = interval m.
Proof. unfold stamped. destruct (Qeq_bool (deliverAt m) 0); reflexivity. Qed.

Lemma id_stamped m s : id (stamped m s) = id m.
Proof. unfold stamped. destruct (Qeq_bool (deliverAt m) 0); reflexivity. Qed.

(** The loop body, case by case on what the callback left in the flag. *)
Lemma deliver_message_inv m s s' :
  deliver_message m s = Some s' ->
  exists s2,
    call (func m) (before_callback m s) = Some s2 /\
    ((cancelCurrent (mt s2) = false /\ 0 < interval m /\
      s' = reinsert (repeated m s) s2) \/
     ((cancelCurrent (mt s2) = true \/ interval m <= 0) /\ s' = s2)).
Proof.
  unfold deliver_message. rewrite func_stamped, interval_stamped.
  intros H. apply bind_Some in H. destruct H as (s2 & Hcall & H).
  exists s2. split; [exact Hcall|].
  destruct (cancelCurrent (mt s2)) eqn:Ec; simpl in H.
  - inversion H. right. auto.
  - destruct (Qgtb (interval m) 0) eqn:Ei; inversion H.
    + left. apply Qgtb_true in Ei. auto.
    + right. apply Qgtb_false in Ei. auto.
Qed.

Lemma deliver_message_ascending m s s' :
  ascending (queue (mt s)) -> deliver_message m s = Some s' ->
  ascending (queue (mt s')).
Proof.
  intros Hs H. apply deliver_message_inv in H.
  destruct H as (s2 & Hcall & H).
  assert (H2 : ascending (queue (mt s2))).
  { eapply call_ascending; [|exact Hcall]. exact Hs. }
  destruct H as [(_ & _ & ->)|(_ & ->)]; auto.
  simpl. now apply InsertMessageInternal_ascending.
Qed.

Lemma deliver_message_delivered m s s' :
  deliver_message m s = Some s' ->
  delivered s' = delivered s ++ [(m, deliverAt (stamped m s))].
Proof.
  intros H. apply deliver_message_inv in H.
  destruct H as (s2 & Hcall & H). apply call_delivered in Hcall.
  destruct H as [(_ & _ & ->)|(_ & ->)]; simpl; rewrite Hcall; reflexivity.
Qed.

Lemma deliver_message_safe m s :
  safe_callback (func m) -> exists s', deliver_message m s = Some s'.
Proof.
  intros Hm. unfold deliver_message. rewrite func_stamped.
  destruct (call_safe (before_callback m s) Hm) as [s2 ->]. simpl.
  destruct (negb (cancelCurrent (mt s2)) && Qgtb (interval (stamped m s)) 0); eauto.
Qed.

Lemma deliver_batch_ascending : forall l s s',
  ascending (queue (mt s)) -> deliver_batch l s = Some s' ->
  ascending (queue (mt s')).
Proof.
  induction l as [|m l IH]; simpl; intros s s' Hs H.
  - inversion H. subst. exact Hs.
  - apply bind_Some in H. destruct H as (s1 & Hm & Hl).
    eapply IH; [|exact Hl]. eapply deliver_message_ascending; eauto.
Qed.

(** The delivery loop hands over the messages of the batch one by one, in
    the order of the batch; a message that was not immediate carries the
    [deliverAt] it had in the queue. *)
Lemma deliver_batch_delivered : forall l s s',
  deliver_batch l s = Some s' ->
  exists log,
    delivered s' = delivered s ++ log /\ map fst log = l /\
    Forall (fun e => ~ deliverAt (fst e) == 0 -> snd e = deliverAt (fst e)) log.
Proof.
  induction l as [|m l IH]; simpl; intros s s' H.
  - inversion H. exists []. rewrite app_nil_r. auto.
  - apply bind_Some in H. destruct H as (s1 & Hm & Hl).
    apply deliver_message_delivered in Hm.
    destruct (IH _ _ Hl) as (log & Hlog & Hfst & Hat).
    exists ((m, deliverAt (stamped m s)) :: log). repeat split.
    + rewrite Hlog, Hm, <- app_assoc. reflexivity.
    + simpl. congruence.
    + constructor; auto. simpl. intros Hz. unfold stamped.
      destruct (Qeq_bool (deliverAt m) 0) eqn:E; auto.
      apply Qeq_bool_iff in E. contradiction.
Qed.

Lemma deliver_batch_safe : forall l s,
  Forall (fun m => safe_callback (func m)) l ->
  exists s', deliver_batch l s = Some s'.
Proof.
  induction l as [|m l IH]; simpl; intros s Hl; eauto.
  inversion Hl as [|? ? Hm Hl']; subst.
  destruct (@deliver_message_safe m s Hm) as [s1 ->]. simpl. auto.
Qed.

Lemma drain_ascending t q :
  ascending q -> ascending (fst (drain t q)) /\ ascending (snd (drain t q)).
Proof.
  rewrite drain_filter. simpl. split; now apply ascending_filter.
Qed.

Lemma Run_body_ascending s r :
  ascending (queue (mt s)) -> Run_body s = Some r -> ascending (queue (mt (snd r))).
Proof.
  unfold Run_body. intros Hs.
  destruct (negb (running (mt s))).
  - intros H. inversion H. exact Hs.
  - assert (Hd : ascending (queue (mt (drained s)))).
    { simpl. now apply drain_ascending. }
    destruct (hardStopped (mt (drained s))).
    + intros H. inversion H. exact Hd.
    + intros H. apply bind_Some in H. destruct H as (s1 & Hb & H).
      inversion H. simpl. eapply deliver_batch_ascending; eauto.
Qed.

Lemma Run_iteration_ascending s s' :
  ascending (queue (mt s)) -> Run_iteration s = Some s' -> ascending (queue (mt s')).
Proof.
  unfold Run_iteration. intros Hs.
  destruct (exited s); [intros H; inversion H; subst; exact Hs|].
  destruct (running (mt s)); [|intros H; inversion H; exact Hs].
  intros H. apply bind_Some in H. destruct H as (r & Hr & H).
  apply Run_body_ascending in Hr; [|exact Hs].
  destruct (fst r); inversion H; exact Hr.
Qed.

Lemma step_ascending (e : event W) s s' :
  ascending (queue (mt s)) -> step e s = Some s' -> ascending (queue (mt s')).
Proof.
  intros Hs. destruct e as [f delay itv|i| | |d|]; simpl; intros H.
  - apply bind_Some in H. destruct H as (r & Hr & H). inversion H.
    invert_Post Hr. simpl.
    now apply InsertMessageInternal_ascending.
  - inversion H. simpl. rewrite erase_id_filter. now apply ascending_filter.
  - inversion H. simpl. constructor.
  - inversion H. simpl. constructor.
  - inversion H. exact Hs.
  - eapply Run_iteration_ascending; eauto.
Qed.

Lemma exec_ascending : forall (evs : list (event W)) s s',
  ascending (queue (mt s)) -> exec evs s = Some s' -> ascending (queue (mt s')).
Proof.
  induction evs as [|e evs IH]; simpl; intros s s' Hs H.
  - inversion H. subst. exact Hs.
  - apply bind_Some in H. destruct H as (s1 & He & H).
    eapply IH; [|exact H]. eapply step_ascending; eauto.
Qed.

End Frames.

(** ** Cancellation *)

Lemma erase_id_absent (W : Type) (i : N) (q : list (Message W)) :
  Forall (fun x => id x <> i) q -> erase_id i q = q.
Proof.
  induction 1 as [|x q Hx _ IH]; simpl; auto.
  apply N.eqb_neq in Hx. rewrite Hx, IH. reflexivity.
Qed.

Lemma erase_id_gone (W : Type) (i : N) (q : list (Message W)) :
  Forall (fun x => id x <> i) (erase_id i q).
Proof.
  induction q as [|x q IH]; simpl; auto.
  destruct (N.eqb (id x) i) eqn:E; auto.
  constructor; auto. now apply N.eqb_neq.
Qed.

(** C4. [Cancel(id)] removes every queued message whose id is [id] and keeps
    the others in their order; when no queued message has that id it changes
    nothing, and it never fails; the other fields are left alone. *)
Theorem C4_Cancel_removes_matching_only (W : Type) (i : N) (t : MessageThread W) :
  queue (Cancel i t) = filter (fun x => negb (N.eqb (id x) i)) (queue t) /\
  Forall (fun x => id x <> i) (queue (Cancel i t)) /\
  ((exists x, In x (queue t) /\ id x = i) \/ Cancel i t = t) /\
  running (Cancel i t) = running t /\
  hardStopped (Cancel i t) = hardStopped t /\
  lastMessageID (Cancel i t) = lastMessageID t /\
  cancelCurrent (Cancel i t) = cancelCurrent t.
Proof.
  repeat split.
  - apply erase_id_filter.
  - apply erase_id_gone.
  - destruct (existsb (fun x => N.eqb (id x) i) (queue t)) eqn:E.
    + left. apply existsb_exists in E. destruct E as (x & Hin & Hx).
      exists x. split; auto. now apply N.eqb_eq.
    + right. destruct t as [r h q l c]. unfold Cancel, set_queue. simpl in *.
      rewrite erase_id_absent; auto.
      apply Forall_forall. intros x Hin Hx.
      assert (Ht : existsb (fun y => N.eqb (id y) i) q = true).
      { apply existsb_exists. exists x. split; auto. now apply N.eqb_eq. }
      congruence.
Qed.

(** ** Shutdown *)

(** C8. After [Stop()], and after [HardStop()], [running] is false and the
    queue is empty whatever it held, due or not; a loop iteration that finds
    [running] false after the wait leaves the loop and changes nothing, not
    even a queue that has been filled again. *)
Theorem C8_Stop_empties_and_loop_exits (W : Type) (s0 s : world W) :
  running (mt s) = false ->
  (running (mt (with_mt (@Stop W) s0)) = false /\
   queue (mt (with_mt (@Stop W) s0)) = [] /\
   running (mt (with_mt (@HardStop W) s0)) = false /\
   queue (mt (with_mt (@HardStop W) s0)) = []) /\
  Run_body (with_mt (@Stop W) s0) = Some (Break, with_mt (@Stop W) s0) /\
  Run_body (with_mt (@HardStop W) s0) = Some (Break, with_mt (@HardStop W) s0) /\
  Run_body s = Some (Break, s) /\
  Run_iteration s = Some (if exited s then s else set_exited true s).
Proof.
  intros Hr. split; [repeat split|]. repeat split.
  - unfold Run_body. rewrite Hr. reflexivity.
  - unfold Run_iteration. rewrite Hr. destruct (exited s); reflexivity.
Qed.

(** C9. [Stop] and [HardStop] are idempotent: a second call leaves the two
    flags, the queue and every other field as the first call left them, also
    when messages were cancelled in between; a [Stop] after a [HardStop]
    changes nothing either. *)
Theorem C9_Stop_HardStop_idempotent (W : Type) (t : MessageThread W) (s : world W) (i : N) :
  Stop (Stop t) = Stop t /\
  HardStop (HardStop t) = HardStop t /\
  Stop (HardStop t) = HardStop t /\
  Stop (Cancel i (Stop t)) = Stop t /\
  HardStop (Cancel i (HardStop t)) = HardStop t /\
  exec [EvStop; EvStop] s = exec [EvStop] s /\
  exec [EvHardStop; EvHardStop] s = exec [EvHardStop] s.
Proof.
  destruct t as [r h q l c]. destruct s as [t n w d e].
  repeat split.
Qed.

Lemma step_hardStopped (W : Type) (e : event W) (s s' : world W) :
  hardStopped (mt s) = true -> step e s = Some s' ->
  hardStopped (mt s') = true /\ delivered s' = delivered s /\ env s' = env s.
Proof.
  intros Hh. destruct e as [f delay itv|i| | |d|]; simpl; intros H.
  - apply bind_Some in H. destruct H as (r & Hr & H). inversion H.
    invert_Post Hr. simpl. auto.
  - inversion H. simpl. auto.
  - inversion H. simpl. auto.
  - inversion H. simpl. auto.
  - inversion H. simpl. auto.
  - unfold Run_iteration, Run_body in H.
    destruct (exited s); [inversion H; subst; auto|].
    destruct (running (mt s)); simpl in H.
    + change (hardStopped (mt (drained s))) with (hardStopped (mt s)) in H.
      rewrite Hh in H. simpl in H. inversion H. simpl. auto.
    + inversion H. simpl. auto.
Qed.

Lemma exec_hardStopped (W : Type) : forall (evs : list (event W)) (s s' : world W),
  hardStopped (mt s) = true -> exec evs s = Some s' ->
  hardStopped (mt s') = true /\ delivered s' = delivered s /\ env s' = env s.
Proof.
  induction evs as [|e evs IH]; simpl; intros s s' Hh H.
  - inversion H. subst. auto.
  - apply bind_Some in H. destruct H as (s1 & He & H).
    destruct (@step_hardStopped W e s s1 Hh He) as (Hh1 & Hd1 & He1).
    destruct (IH _ _ Hh1 H) as (Hf & Hd & Hen).
    rewrite Hd, Hen. auto.
Qed.

(** C7. Once the hard-stop flag is set, whatever happens next (calls from
    other threads, time passing, iterations of the loop), no message is
    handed to the delivery loop and no callback runs: the record of
    deliveries and the state captured by the closures stay as they are and
    the flag stays set.  An iteration that is past the test of [running]
    takes its batch out of the queue, drops it, and leaves the loop.
    [HardStop] sets the flag, so all this holds of every run that goes on
    from a call of [HardStop]. *)
Theorem C7_HardStop_no_callback_after (W : Type) (evs : list (event W)) (s s' : world W) :
  hardStopped (mt s) = true ->
  exec evs s = Some s' ->
  (delivered s' = delivered s /\ env s' = env s /\ hardStopped (mt s') = true) /\
  Run_body s = Some (Break, if running (mt s) then drained s else s) /\
  delivered (drained s) = delivered s /\ env (drained s) = env s /\
  (forall s0 s1 : world W,
     exec (EvHardStop :: evs) s0 = Some s1 ->
     delivered s1 = delivered s0 /\ env s1 = env s0 /\ hardStopped (mt s1) = true).
Proof.
  intros Hh Hexec. split; [|repeat split].
  - destruct (@exec_hardStopped W evs s s' Hh Hexec) as (Hf & Hd & He). auto.
  - unfold Run_body. destruct (running (mt s)); simpl; [|reflexivity].
    change (hardStopped (mt (drained s))) with (hardStopped (mt s)).
    rewrite Hh. reflexivity.
  - simpl in H.
    destruct (@exec_hardStopped W evs (with_mt (@HardStop W) s0) s1 eq_refl H)
      as (_ & Hd & _). exact Hd.
  - simpl in H.
    destruct (@exec_hardStopped W evs (with_mt (@HardStop W) s0) s1 eq_refl H)
      as (_ & _ & He). exact He.
  - simpl in H.
    destruct (@exec_hardStopped W evs (with_mt (@HardStop W) s0) s1 eq_refl H)
      as (Hf & _). exact Hf.
Qed.

(** ** Insertion *)

Lemma place_split_ascending (W : Type) (m : Message W) (q : list (Message W)) :
  ascending q ->
  exists l1 l2,
    q = l1 ++ l2 /\ place m q = l1 ++ m :: l2 /\
    Forall (fun x => deliverAt x <= deliverAt m) l1 /\
    Forall (fun x => deliverAt m < deliverAt x) l2.
Proof.
  intros Hq. destruct (place_split m q) as (l1 & l2 & Hsplit & Hp & Hle & Hgt).
  exists l1, l2. repeat split; auto.
  subst q. apply ascending_app_inv in Hq. destruct Hq as (_ & H2 & _).
  destruct l2 as [|y l2]; constructor.
  - now apply Hgt.
  - inversion H2 as [|? ? _ Hall]; subst. specialize (Hgt y eq_refl).
    eapply Forall_impl; [|exact Hall]. unfold before. intros z Hz. lra.
Qed.

Lemma In_InsertMessageInternal (W : Type) (q : list (Message W)) (m : Message W) :
  In m (InsertMessageInternal q m).
Proof.
  rewrite InsertMessageInternal_place.
  destruct (place_split m q) as (l1 & l2 & _ & -> & _).
  apply in_or_app. right. left. reflexivity.
Qed.

(** C2. In every state that a run reaches from a sorted queue (the empty
    queue of a new scheduler is one) the queue is sorted ascending by
    [deliverAt]: calls of [Post] and the reinsertion of repeating messages
    keep it so.  [InsertMessageInternal] puts a message behind all queued
    messages that are not later than it, those of equal [deliverAt]
    included, and in front of all that are strictly later. *)
Theorem C2_queue_sorted_insertion_stable
  (W : Type) (evs : list (event W)) (s s' : world W) (m : Message W) :
  ascending (queue (mt s)) ->
  exec evs s = Some s' ->
  ascending (queue (mt s')) /\
  exists l1 l2,
    queue (mt s') = l1 ++ l2 /\
    InsertMessageInternal (queue (mt s')) m = l1 ++ m :: l2 /\
    Forall (fun x => deliverAt x <= deliverAt m) l1 /\
    Forall (fun x => deliverAt m < deliverAt x) l2 /\
    ascending (InsertMessageInternal (queue (mt s')) m).
Proof.
  intros Hs Hexec.
  assert (Hs' : ascending (queue (mt s'))) by (eapply exec_ascending; eauto).
  split; [exact Hs'|].
  destruct (place_split_ascending m Hs') as (l1 & l2 & Hq & Hp & Hle & Hgt).
  exists l1, l2. rewrite InsertMessageInternal_place. repeat split; auto.
  now apply place_ascending.
Qed.

(** ** Identifiers *)

Lemma post_seq_fresh (W : Type) : forall (ps : list (post_call W)) (s : world W),
  Forall (fun c => 0 <= pc_delay c) ps ->
  (lastMessageID (mt s) + N.of_nat (length ps) < UINT32_MOD)%N ->
  exists ids s1,
    post_seq ps s = Some (ids, s1) /\
    lastMessageID (mt s1) = (lastMessageID (mt s) + N.of_nat (length ps))%N /\
    Forall (fun j => (lastMessageID (mt s) <= j < lastMessageID (mt s1))%N) ids /\
    StronglySorted N.lt ids.
Proof.
  induction ps as [|c ps IH]; intros s Hd Hlen.
  - exists [], s. simpl. repeat split; auto; [lia|constructor].
  - inversion Hd as [|? ? Hc Hps]; subst.
    change (length (c :: ps)) with (S (length ps)) in *.
    rewrite Nat2N.inj_succ in *. cbn [post_seq].
    rewrite (Post_Some _ _ (advance (pc_after c) s) Hc). cbn [bind snd fst].
    set (s1 := with_mt _ _).
    assert (Hl1 : lastMessageID (mt s1) = (lastMessageID (mt s) + 1)%N).
    { subst s1. simpl. apply N.mod_small. unfold UINT32_MOD in *. lia. }
    destruct (IH s1 Hps) as (ids & s2 & Hseq & Hl2 & Hin & Hsorted).
    { rewrite Hl1. lia. }
    rewrite Hseq. cbn [bind snd fst].
    exists (lastMessageID (mt (advance (pc_after c) s)) :: ids), s2.
    rewrite Hl1 in Hin. change (mt (advance (pc_after c) s)) with (mt s).
    repeat split.
    + rewrite Hl2, Hl1. lia.
    + constructor; [lia|]. eapply Forall_impl; [|exact Hin]. simpl. lia.
    + constructor; auto. eapply Forall_impl; [|exact Hin]. simpl. lia.
Qed.

(** C3 (amended). A call of [Post] with [delay >= 0] inserts a message whose
    [deliverAt] is 0 when [delay == 0] and [now + delay] otherwise, whose id
    is the value of the 32-bit counter, and returns that id.  The id is
    strictly greater than the ids of all messages posted before as long as
    the counter has not wrapped around, which is the case while the counter
    plus the number of calls stays below 2^32. *)
Theorem C3_Post_deliverAt_and_fresh_id
  (W : Type) (ps : list (post_call W)) (s : world W) (f : callback W) (delay itv : Q) :
  Forall (fun c => 0 <= pc_delay c) ps ->
  0 <= delay ->
  (lastMessageID (mt s) + N.of_nat (length ps) < UINT32_MOD)%N ->
  exists ids s1 s2,
    post_seq ps s = Some (ids, s1) /\
    Post f delay itv s1 = Some (lastMessageID (mt s1), s2) /\
    (let m := mkMessage (lastMessageID (mt s1))
                        (if Qeq_bool delay 0 then 0 else now s1 + delay) itv f in
     queue (mt s2) = InsertMessageInternal (queue (mt s1)) m /\
     In m (queue (mt s2))) /\
    Forall (fun j => (j < lastMessageID (mt s1))%N) ids /\
    StronglySorted N.lt ids.
Proof.
  intros Hps Hd Hlen.
  destruct (post_seq_fresh s Hps Hlen) as (ids & s1 & Hseq & Hl & Hin & Hsorted).
  exists ids, s1. eexists. split; [exact Hseq|].
  split; [apply Post_Some; exact Hd|]. simpl. repeat split; auto.
  - apply In_InsertMessageInternal.
  - eapply Forall_impl; [|exact Hin]. simpl. lia.
Qed.

(** ** Repetition *)

Section Repetition.

Variable W : Type.
Implicit Types (m : Message W) (s : world W) (p : prog W).

Lemma run_prog_flag_sticky p s s' :
  cancelCurrent (mt s) = true -> run_prog p s = Some s' ->
  cancelCurrent (mt s') = true.
Proof.
  apply (@run_prog_keeps W (fun x => cancelCurrent (mt x) = true)); auto.
  intros x f delay itv r Hx Hr. invert_Post Hr. exact Hx.
Qed.

Lemma run_prog_calls_CancelSelf p :
  calls_CancelSelf p ->
  forall s s', run_prog p s = Some s' -> cancelCurrent (mt s') = true.
Proof.
  induction 1 as [k|f delay itv k Hk IH|i k Hk IH|d k Hk IH]; simpl; intros s s' Hrun.
  - eapply run_prog_flag_sticky; [|exact Hrun]. reflexivity.
  - apply bind_Some in Hrun. destruct Hrun as (r & _ & Hrun). eapply IH; eauto.
  - eapply IH; eauto.
  - eapply IH; eauto.
Qed.

Lemma deliver_message_repeats m s s2 :
  0 < interval m ->
  call (func m) (before_callback m s) = Some s2 ->
  cancelCurrent (mt s2) = false ->
  deliver_message m s = Some (reinsert (repeated m s) s2).
Proof.
  intros Hi Hcall Hflag. unfold deliver_message.
  rewrite func_stamped, interval_stamped, Hcall. simpl. rewrite Hflag.
  apply Qgtb_true in Hi. rewrite Hi. reflexivity.
Qed.

Lemma deliverAt_repeated m s :
  deliverAt (repeated m s) = deliverAt (stamped m s) + interval m.
Proof. reflexivity. Qed.

Lemma deliverAt_stamped_timed m s :
  ~ deliverAt m == 0 -> deliverAt (stamped m s) = deliverAt m.
Proof.
  intros H. unfold stamped. destruct (Qeq_bool (deliverAt m) 0) eqn:E; auto.
  apply Qeq_bool_iff in E. contradiction.
Qed.

Lemma deliverAt_stamped_immediate m s :
  deliverAt m == 0 -> deliverAt (stamped m s) = now s.
Proof.
  intros H. unfold stamped. apply Qeq_bool_iff in H. rewrite H. reflexivity.
Qed.

End Repetition.


(** ** Cancelling the running message by its id *)

Lemma NoDup_map_eq (A B : Type) (f : A -> B) (l : list A) (x y : A) :
  NoDup (map f l) -> In x l -> In y l -> f x = f y -> x = y.
Proof.
  induction l as [|a l IH]; simpl; intros Hnd Hx Hy Hxy; [contradiction|].
  inversion Hnd as [|? ? Hnotin Hnd']; subst.
  destruct Hx as [Hx|Hx], Hy as [Hy|Hy]; subst; auto.
  - exfalso. apply Hnotin. rewrite Hxy. now apply in_map.
  - exfalso. apply Hnotin. rewrite <- Hxy. now apply in_map.
Qed.

(** The messages left in the queue by [drain] share no id with the batch
    when the ids in the queue are distinct. *)
Lemma drain_ids_apart (W : Type) (t : Q) (q : list (Message W)) (m : Message W) :
  NoDup (map id q) -> In m (fst (drain t q)) ->
  Forall (fun x => id x <> id m) (snd (drain t q)).
Proof.
  rewrite drain_filter. simpl. intros Hnd Hm.
  apply filter_In in Hm. destruct Hm as [Hm Hdue].
  apply Forall_forall. intros x Hx Hid.
  apply filter_In in Hx. destruct Hx as [Hx Hnot].
  assert (x = m) by (eapply NoDup_map_eq; eauto). subst.
  rewrite Hdue in Hnot. discriminate.
Qed.

Section OwnId.

Variable W : Type.
Implicit Types (m x : Message W) (q : list (Message W)) (s : world W) (p : prog W).

Lemma Forall_InsertMessageInternal (P : Message W -> Prop) q m :
  P m -> Forall P q -> Forall P (InsertMessageInternal q m).
Proof.
  intros Hm Hq. rewrite InsertMessageInternal_place.
  destruct (place_split m q) as (l1 & l2 & Hsplit & -> & _).
  rewrite Hsplit in Hq. apply Forall_app in Hq. destruct Hq as [H1 H2].
  apply Forall_app. split; [exact H1|]. constructor; assumption.
Qed.

Lemma Cancel_absent s i :
  Forall (fun x => id x <> i) (queue (mt s)) -> with_mt (Cancel i) s = s.
Proof.
  destruct s as [[r h q l c] n w d e]. unfold with_mt, Cancel, set_queue. simpl.
  intros H. rewrite (erase_id_absent H). reflexivity.
Qed.

Lemma Cancel_keeps_absent s i j :
  Forall (fun x => id x <> i) (queue (mt s)) ->
  Forall (fun x => id x <> i) (queue (mt (with_mt (Cancel j) s))).
Proof.
  simpl. rewrite erase_id_filter. intros H.
  apply Forall_forall. intros x Hx. apply filter_In in Hx.
  rewrite Forall_forall in H. now apply H.
Qed.

(** The state after a call of [Post] that hands out an id above [i]. *)
Lemma Post_keeps_absent (f : callback W) (delay itv : Q) s r (i : N) (n : nat) :
  (i < lastMessageID (mt s))%N ->
  (lastMessageID (mt s) + N.of_nat (S n) < UINT32_MOD)%N ->
  Forall (fun x => id x <> i) (queue (mt s)) ->
  Post f delay itv s = Some r ->
  Forall (fun x => id x <> i) (queue (mt (snd r))) /\
  lastMessageID (mt (snd r)) = (lastMessageID (mt s) + 1)%N.
Proof.
  intros Hi Hwrap Hq Hr. invert_Post Hr. cbn [snd mt with_mt queue lastMessageID].
  split.
  - apply Forall_InsertMessageInternal; [|exact Hq].
    unfold new_message. cbn [id]. lia.
  - apply N.mod_small. rewrite Nat2N.inj_succ in Hwrap. lia.
Qed.

(** While no message in the queue has the id [i] and the counter stays above
    [i], a callback leaves it so. *)
Lemma run_prog_keeps_absent (i : N) (n : nat) p :
  at_most_posts n p ->
  forall s s',
    (i < lastMessageID (mt s))%N ->
    (lastMessageID (mt s) + N.of_nat n < UINT32_MOD)%N ->
    Forall (fun x => id x <> i) (queue (mt s)) ->
    run_prog p s = Some s' ->
    Forall (fun x => id x <> i) (queue (mt s')) /\
    (lastMessageID (mt s) <= lastMessageID (mt s'))%N /\
    (lastMessageID (mt s') <= lastMessageID (mt s) + N.of_nat n)%N.
Proof.
  induction 1 as [n w|n f delay itv k Hk IH|n j k Hk IH|n k Hk IH|n d k Hk IH];
    cbn [run_prog]; intros s s' Hi Hwrap Hq Hrun.
  - inversion Hrun. subst. simpl. repeat split; auto; lia.
  - apply bind_Some in Hrun. destruct Hrun as (r & Hr & Hrun).
    destruct (@Post_keeps_absent f delay itv s r i n Hi Hwrap Hq Hr) as [Hq1 Hc1].
    rewrite Nat2N.inj_succ in Hwrap.
    destruct (IH (fst r) (snd r) s') as (H1 & H2 & H3); auto; try (rewrite Hc1; lia).
    rewrite Hc1 in H2, H3. rewrite Nat2N.inj_succ. repeat split; auto; lia.
  - apply (IH (with_mt (Cancel j) s) s'); auto. now apply Cancel_keeps_absent.
  - apply (IH (with_mt (@CancelSelf W) s) s'); auto.
  - apply (IH (advance d s) s'); auto.
Qed.

(** There the calls of [Cancel(i)] remove nothing: the callback does what
    it does without them. *)
Lemma run_prog_without_Cancel (i : N) (n : nat) p :
  at_most_posts n p ->
  forall s,
    (i < lastMessageID (mt s))%N ->
    (lastMessageID (mt s) + N.of_nat n < UINT32_MOD)%N ->
    Forall (fun x => id x <> i) (queue (mt s)) ->
    run_prog p s = run_prog (without_Cancel i p) s.
Proof.
  induction 1 as [n w|n f delay itv k Hk IH|n j k Hk IH|n k Hk IH|n d k Hk IH];
    cbn [run_prog without_Cancel]; intros s Hi Hwrap Hq.
  - reflexivity.
  - destruct (Post f delay itv s) as [r|] eqn:Hr; [|reflexivity]. cbn [bind].
    destruct (@Post_keeps_absent f delay itv s r i n Hi Hwrap Hq Hr) as [Hq1 Hc1].
    rewrite Nat2N.inj_succ in Hwrap.
    apply IH; auto; rewrite Hc1; lia.
  - destruct (N.eqb j i) eqn:E.
    + apply N.eqb_eq in E. subst j. rewrite (@Cancel_absent s i Hq). now apply IH.
    + cbn [run_prog]. apply IH; auto. now apply Cancel_keeps_absent.
  - apply IH; auto.
  - apply IH; auto.
Qed.

(** And each of these calls finds nothing to remove. *)
Lemma run_prog_cancels_remove_nothing (i : N) (n : nat) p :
  at_most_posts n p ->
  forall s,
    (i < lastMessageID (mt s))%N ->
    (lastMessageID (mt s) + N.of_nat n < UINT32_MOD)%N ->
    Forall (fun x => id x <> i) (queue (mt s)) ->
    cancels_remove_nothing i p s.
Proof.
  induction 1 as [n w|n f delay itv k Hk IH|n j k Hk IH|n k Hk IH|n d k Hk IH];
    cbn [cancels_remove_nothing]; intros s Hi Hwrap Hq.
  - exact I.
  - destruct (Post f delay itv s) as [r|] eqn:Hr; [|exact I].
    destruct (@Post_keeps_absent f delay itv s r i n Hi Hwrap Hq Hr) as [Hq1 Hc1].
    rewrite Nat2N.inj_succ in Hwrap.
    apply IH; auto; rewrite Hc1; lia.
  - split.
    + intros ->. cbn [Cancel set_queue queue]. now apply erase_id_absent.
    + apply IH; auto. now apply Cancel_keeps_absent.
  - apply IH; auto.
  - apply IH; auto.
Qed.

Lemma deliver_message_keeps_absent (i : N) (n : nat) m s s' :
  posts_at_most n (func m) -> id m <> i ->
  (i < lastMessageID (mt s))%N ->
  (lastMessageID (mt s) + N.of_nat n < UINT32_MOD)%N ->
  Forall (fun x => id x <> i) (queue (mt s)) ->
  deliver_message m s = Some s' ->
  Forall (fun x => id x <> i) (queue (mt s')) /\
  (lastMessageID (mt s) <= lastMessageID (mt s'))%N /\
  (lastMessageID (mt s') <= lastMessageID (mt s) + N.of_nat n)%N.
Proof.
  intros Hn Hm Hi Hwrap Hq Hdel.
  apply deliver_message_inv in Hdel. destruct Hdel as (s2 & Hcall & Hs').
  assert (H2 : Forall (fun x => id x <> i) (queue (mt s2)) /\
               (lastMessageID (mt s) <= lastMessageID (mt s2))%N /\
               (lastMessageID (mt s2) <= lastMessageID (mt s) + N.of_nat n)%N).
  { destruct (func m) as [body|] eqn:Ef; simpl in Hcall.
    - apply (@run_prog_keeps_absent i n (body (env s)) (Hn body eq_refl (env s))
               (before_callback m s) s2); auto.
    - inversion Hcall. subst s2. simpl. repeat split; auto; lia. }
  destruct Hs' as [(_ & _ & ->)|(_ & ->)]; [|exact H2].
  destruct H2 as (Hq2 & Hc2). cbn [reinsert with_mt mt queue lastMessageID set_queue].
  split; [|exact Hc2].
  apply Forall_InsertMessageInternal; [|exact Hq2].
  unfold repeated. cbn [id set_deliverAt]. rewrite id_stamped. exact Hm.
Qed.

Lemma deliver_batch_app : forall (l1 l2 : list (Message W)) s,
  deliver_batch (l1 ++ l2) s = (s' <- deliver_batch l1 s ;; deliver_batch l2 s').
Proof.
  induction l1 as [|m l1 IH]; intros l2 s; cbn [app deliver_batch bind].
  - reflexivity.
  - destruct (deliver_message m s) as [s1|]; cbn [bind]; [apply IH|reflexivity].
Qed.

Lemma deliver_batch_keeps_absent (i : N) (n : nat) : forall (l : list (Message W)) s s',
  Forall (fun x => posts_at_most n (func x)) l ->
  Forall (fun x => id x <> i) l ->
  (i < lastMessageID (mt s))%N ->
  (lastMessageID (mt s) + N.of_nat (n * length l) < UINT32_MOD)%N ->
  Forall (fun x => id x <> i) (queue (mt s)) ->
  deliver_batch l s = Some s' ->
  Forall (fun x => id x <> i) (queue (mt s')) /\
  (lastMessageID (mt s) <= lastMessageID (mt s'))%N /\
  (lastMessageID (mt s') <= lastMessageID (mt s) + N.of_nat (n * length l))%N.
Proof.
  induction l as [|m l IH]; simpl; intros s s' Hn Hl Hi Hwrap Hq Hrun.
  - inversion Hrun. subst. repeat split; auto; lia.
  - apply bind_Some in Hrun. destruct Hrun as (s1 & Hm & Hrun).
    inversion Hn as [|? ? Hnm Hnl]; subst. inversion Hl as [|? ? Hlm Hll]; subst.
    rewrite Nat.mul_succ_r, Nat2N.inj_add in Hwrap |- *.
    destruct (@deliver_message_keeps_absent i n m s s1) as (Hq1 & Hc1 & Hc1'); auto;
      [lia|].
    destruct (IH s1 s') as (Hq' & Hc' & Hc''); auto; try lia.
    repeat split; auto; lia.
Qed.

End OwnId.

(** ** Order of delivery *)

Section Delivery.

Variable W : Type.
Implicit Types (m : Message W) (q : list (Message W)) (s : world W)
  (ps : list (post_call W)).

Lemma insert_all_cons m msgs q :
  insert_all (m :: msgs) q = insert_all msgs (InsertMessageInternal q m).
Proof. reflexivity. Qed.

Lemma insert_all_ascending : forall msgs q,
  ascending q -> ascending (insert_all msgs q).
Proof.
  induction msgs as [|m msgs IH]; intros q Hq; [exact Hq|].
  rewrite insert_all_cons. apply IH. now apply InsertMessageInternal_ascending.
Qed.

(** Messages of equal [deliverAt] stand in the queue in the order in which
    they were inserted. *)
Lemma insert_all_stable k : forall msgs q,
  ascending q -> with_key k (insert_all msgs q) = with_key k (q ++ msgs).
Proof.
  induction msgs as [|m msgs IH]; intros q Hq.
  - now rewrite app_nil_r.
  - rewrite insert_all_cons, IH by now apply InsertMessageInternal_ascending.
    rewrite InsertMessageInternal_place, with_key_app, place_stable by exact Hq.
    rewrite <- with_key_app, <- app_assoc. reflexivity.
Qed.

Lemma insert_all_In : forall msgs q x,
  In x (insert_all msgs q) -> In x q \/ In x msgs.
Proof.
  induction msgs as [|m msgs IH]; intros q x Hx; [now left|].
  rewrite insert_all_cons in Hx.
  apply IH in Hx. destruct Hx as [Hx|Hx]; [|right; now right].
  rewrite InsertMessageInternal_place in Hx.
  destruct (place_split m q) as (l1 & l2 & Hq & Hp & _). rewrite Hp in Hx. subst q.
  apply in_app_or in Hx. destruct Hx as [Hx|[Hx|Hx]].
  - left. apply in_or_app. auto.
  - right. now left.
  - left. apply in_or_app. auto.
Qed.

Lemma post_seq_spec : forall ps s,
  Forall (fun c => 0 <= pc_delay c) ps ->
  exists ids s1,
    post_seq ps s = Some (ids, s1) /\
    queue (mt s1) = insert_all (posted ps s) (queue (mt s)) /\
    running (mt s1) = running (mt s) /\
    hardStopped (mt s1) = hardStopped (mt s) /\
    delivered s1 = delivered s.
Proof.
  induction ps as [|c ps IH]; intros s Hd.
  - exists [], s. simpl. auto.
  - inversion Hd as [|? ? Hc Hps]; subst. cbn [post_seq posted].
    rewrite (Post_Some _ _ (advance (pc_after c) s) Hc). cbn [bind snd fst].
    set (s1 := with_mt _ _).
    destruct (IH s1 Hps) as (ids & s2 & Hseq & Hq & Hr & Hh & Hdel).
    rewrite Hseq. cbn [bind snd fst]. eexists. exists s2.
    split; [reflexivity|]. rewrite Hq, Hr, Hh, Hdel. subst s1. simpl. auto.
Qed.

Lemma posted_funcs : forall ps s m,
  In m (posted ps s) -> exists c, In c ps /\ func m = pc_func c.
Proof.
  induction ps as [|c ps IH]; simpl; intros s m Hm; [contradiction|].
  destruct Hm as [Hm|Hm].
  - exists c. subst m. auto.
  - destruct (Post _ _ _ _) as [r|]; [|contradiction].
    destruct (IH _ _ Hm) as (c' & Hc' & Hf). exists c'. auto.
Qed.

End Delivery.

(** C1 (amended). After any sequence of calls of [Post] with non-negative
    delays, on a scheduler whose queue is sorted (an empty one, or any the
    scheduler has reached), the next iteration of the loop hands its batch
    to the callbacks in non-decreasing order of the [deliverAt] the messages
    have in the queue, where an immediate message counts with its 0 and so
    goes first; among the messages of one [deliverAt] those that were in the
    queue come first, in their order, and then those posted, in the order of
    the calls of [Post].  A message that is not immediate carries into its
    delivery the [deliverAt] it had in the queue. *)
Theorem C1_delivery_in_queue_order
  (W : Type) (ps : list (post_call W)) (s0 : world W) (d : Q) :
  ascending (queue (mt s0)) ->
  Forall (fun m => safe_callback (func m)) (queue (mt s0)) ->
  running (mt s0) = true ->
  hardStopped (mt s0) = false ->
  Forall (fun c => 0 <= pc_delay c) ps ->
  Forall (fun c => safe_callback (pc_func c)) ps ->
  exists ids s1 s2 log,
    post_seq ps s0 = Some (ids, s1) /\
    Run_body (advance d s1) = Some (Continue, s2) /\
    delivered s2 = delivered s0 ++ log /\
    ascending (map fst log) /\
    (forall k, with_key k (map fst log) =
               with_key k (filter (due (now s1 + d))
                                  (queue (mt s0) ++ posted ps s0))) /\
    Forall (fun e => ~ deliverAt (fst e) == 0 -> snd e = deliverAt (fst e)) log.
Proof.
  intros Hq0 Hsafe0 Hrun Hhard Hdelay Hsafe.
  destruct (post_seq_spec s0 Hdelay) as (ids & s1 & Hseq & Hq & Hr & Hh & Hdel).
  assert (Hasc : ascending (queue (mt s1))).
  { rewrite Hq. now apply insert_all_ascending. }
  set (batch := fst (drain (now s1 + d) (queue (mt s1)))).
  assert (Hbatch : batch = filter (due (now s1 + d)) (queue (mt s1))).
  { unfold batch. rewrite drain_filter. reflexivity. }
  assert (Hbsafe : Forall (fun m => safe_callback (func m)) batch).
  { apply Forall_forall. intros m Hm. rewrite Hbatch in Hm.
    apply filter_In in Hm. destruct Hm as [Hm _]. rewrite Hq in Hm.
    apply insert_all_In in Hm. destruct Hm as [Hm|Hm].
    - rewrite Forall_forall in Hsafe0. now apply Hsafe0.
    - apply posted_funcs in Hm. destruct Hm as (c & Hc & ->).
      rewrite Forall_forall in Hsafe. now apply Hsafe. }
  destruct (deliver_batch_safe (drained (advance d s1)) Hbsafe) as [s2 Hs2].
  destruct (deliver_batch_delivered _ _ Hs2) as (log & Hlog & Hfst & Hat).
  exists ids, s1, s2, log. split; [exact Hseq|]. split; [|split; [|split; [|split]]].
  - unfold Run_body. simpl running. rewrite Hr, Hrun. simpl negb. cbv iota.
    change (hardStopped (mt (drained (advance d s1)))) with (hardStopped (mt s1)).
    rewrite Hh, Hhard.
    change (fst (drain (now (advance d s1)) (queue (mt (advance d s1))))) with batch.
    rewrite Hs2. reflexivity.
  - rewrite Hlog. simpl. rewrite Hdel. reflexivity.
  - rewrite Hfst, Hbatch. now apply ascending_filter.
  - intros k. rewrite Hfst, Hbatch, !with_key_filter, Hq.
    rewrite insert_all_stable by exact Hq0. reflexivity.
  - exact Hat.
Qed.

(** ** A message that cancels itself *)

Lemma deliver_message_CancelSelf
  (W : Type) (m : Message W) (s : world W) (body : W -> prog W) :
  func m = Some body -> calls_CancelSelf (body (env s)) ->
  deliver_message m s = call (func m) (before_callback m s).
Proof.
  intros Hf Hc. unfold deliver_message. rewrite func_stamped.
  destruct (call (func m) (before_callback m s)) as [s2|] eqn:Hcall; [|reflexivity].
  simpl. rewrite Hf in Hcall. simpl in Hcall.
  rewrite (run_prog_calls_CancelSelf Hc _ Hcall). reflexivity.
Qed.

Lemma self_cancel_inv_ext (n : nat) (i : N) (itv : Q) base (s s' : world nat) :
  hardStopped (mt s') = hardStopped (mt s) ->
  delivered s' = delivered s ->
  env s' = env s ->
  queue (mt s') = queue (mt s) ->
  self_cancel_inv n i itv base s -> self_cancel_inv n i itv base s'.
Proof.
  unfold self_cancel_inv. intros -> -> -> ->. auto.
Qed.

Lemma Run_iteration_self_cancel (n : nat) (i : N) (itv : Q) base (s : world nat) :
  0 < itv -> self_cancel_inv n i itv base s ->
  exists s', Run_iteration s = Some s' /\ self_cancel_inv n i itv base s'.
Proof.
  intros Hitv Hinv. pose proof Hinv as (Hh & (log & Hlog & Hlen & Hids) & Hq).
  unfold Run_iteration.
  destruct (exited s).
  { exists s. split; auto. }
  destruct (running (mt s)) eqn:Hrun.
  2:{ eexists. split; [reflexivity|]. revert Hinv. now apply self_cancel_inv_ext. }
  unfold Run_body. rewrite Hrun. cbn [negb].
  change (hardStopped (mt (drained s))) with (hardStopped (mt s)). rewrite Hh.
  destruct Hq as [(Hlt & d & Hq)|(Hn & Hq)].
  2:{ unfold drained. rewrite Hq. simpl. eexists. split; [reflexivity|].
      revert Hinv. apply self_cancel_inv_ext; simpl; auto. }
  unfold drained. rewrite Hq. cbn [drain fst snd].
  destruct (due (now s) (repeating n i itv d)) eqn:Hdue; cbn [fst snd].
  2:{ simpl. eexists. split; [reflexivity|].
      revert Hinv. apply self_cancel_inv_ext; simpl; auto. }
  cbn [deliver_batch]. unfold deliver_message.
  rewrite func_stamped, interval_stamped.
  cbn [func repeating interval call cancel_self_at].
  change (env (before_callback (repeating n i itv d) (with_mt (set_queue []) s)))
    with (env s).
  apply Qgtb_true in Hitv. rewrite Hitv.
  destruct (Nat.eqb (S (env s)) n) eqn:En.
  - apply Nat.eqb_eq in En. cbn. eexists. split; [reflexivity|].
    split; [exact Hh|]. split.
    + exists (log ++ [(repeating n i itv d,
                        deliverAt (stamped (repeating n i itv d) (with_mt (set_queue []) s)))]).
      cbn. rewrite Hlog, <- app_assoc, length_app, Forall_app. cbn.
      repeat split; auto. lia.
    + right. cbn. auto.
  - apply Nat.eqb_neq in En. cbn. eexists. split; [reflexivity|].
    split; [exact Hh|]. split.
    + exists (log ++ [(repeating n i itv d,
                        deliverAt (stamped (repeating n i itv d) (with_mt (set_queue []) s)))]).
      cbn. rewrite Hlog, <- app_assoc, length_app, Forall_app. cbn.
      repeat split; auto. lia.
    + left. cbn. split; [lia|].
      unfold repeated, stamped, repeating. cbn.
      destruct (Qeq_bool d 0); eexists; reflexivity.
Qed.

Lemma exec_self_cancel (n : nat) (i : N) (itv : Q) base :
  0 < itv ->
  forall (evs : list (event nat)) (s : world nat),
    Forall (@worker_only nat) evs -> self_cancel_inv n i itv base s ->
    exists s', exec evs s = Some s' /\ self_cancel_inv n i itv base s'.
Proof.
  intros Hitv. induction evs as [|e evs IH]; intros s Hev Hinv.
  - exists s. auto.
  - inversion Hev as [|? ? He Hevs]; subst.
    assert (Hstep : exists s1, step e s = Some s1 /\ self_cancel_inv n i itv base s1).
    { destruct e; simpl in He; try contradiction.
      - eexists. split; [reflexivity|]. revert Hinv. now apply self_cancel_inv_ext.
      - now apply Run_iteration_self_cancel. }
    destruct Hstep as (s1 & Hs1 & Hinv1).
    destruct (IH s1 Hevs Hinv1) as (s' & Hs' & Hinv').
    exists s'. simpl. rewrite Hs1. auto.
Qed.
Lemma stamped_le_now (W : Type) (m : Message W) (s : world W) :
  due (now s) m = true -> deliverAt (stamped m s) <= now s.
Proof.
  unfold due, stamped. destruct (Qeq_bool (deliverAt m) 0); simpl.
  - intros _. lra.
  - apply Qgeb_true.
Qed.

Lemma due_le (W : Type) (t : Q) (m : Message W) :
  deliverAt m <= t -> due t m = true.
Proof.
  intros H. unfold due. apply Qgeb_true in H. rewrite H. apply orb_true_r.
Qed.

Lemma repeated_repeating (n : nat) (i : N) (itv d : Q) (s : world nat) :
  repeated (repeating n i itv d) s =
  repeating n i itv (deliverAt (stamped (repeating n i itv d) s) + itv).
Proof.
  unfold repeated, stamped, repeating. cbn.
  destruct (Qeq_bool d 0); reflexivity.
Qed.

(** Time passes until the message is due and the loop iterates: the callback
    runs once more. *)
Lemma elapse_run_self_cancel (n : nat) (i : N) (itv d e : Q) (s : world nat) :
  0 < itv ->
  running (mt s) = true -> hardStopped (mt s) = false -> exited s = false ->
  queue (mt s) = [repeating n i itv d] ->
  due (now s + e) (repeating n i itv d) = true ->
  exists s',
    exec [EvElapse e; EvRun] s = Some s' /\
    env s' = S (env s) /\
    running (mt s') = true /\ hardStopped (mt s') = false /\ exited s' = false /\
    length (delivered s') = S (length (delivered s)) /\
    ((S (env s) = n /\ queue (mt s') = []) \/
     (S (env s) <> n /\
      exists d', queue (mt s') = [repeating n i itv d'] /\ d' <= now s' + itv)).
Proof.
  intros Hitv Hrun Hh Hex Hq Hdue.
  pose proof (@stamped_le_now nat (repeating n i itv d) (advance e s) Hdue) as Hle.
  cbn [exec step bind]. unfold Run_iteration.
  change (exited (advance e s)) with (exited s). rewrite Hex.
  change (mt (advance e s)) with (mt s). rewrite Hrun.
  unfold Run_body. change (mt (advance e s)) with (mt s). rewrite Hrun. cbn [negb].
  change (hardStopped (mt (drained (advance e s)))) with (hardStopped (mt s)).
  rewrite Hh. unfold drained. change (mt (advance e s)) with (mt s). rewrite Hq.
  cbn [drain fst snd]. change (now (advance e s)) with (now s + e) at 1 2.
  rewrite Hdue. cbn [fst snd deliver_batch]. unfold deliver_message.
  rewrite func_stamped, interval_stamped.
  cbn [func repeating interval call cancel_self_at].
  apply Qgtb_true in Hitv. rewrite Hitv.
  match goal with |- context [Nat.eqb (S ?x) n] => change x with (env s) end.
  destruct (Nat.eqb (S (env s)) n) eqn:En.
  - apply Nat.eqb_eq in En. cbn. eexists. split; [reflexivity|]. cbn.
    rewrite length_app. cbn. repeat split; auto; try lia.
  - apply Nat.eqb_neq in En. cbn. eexists. split; [reflexivity|]. cbn.
    rewrite length_app. cbn. repeat split; auto; try lia.
    right. split; auto. rewrite repeated_repeating.
    eexists. split; [reflexivity|].
    apply Qgtb_true in Hitv. revert Hle. unfold stamped. cbn.
    destruct (Qeq_bool d 0); cbn; intros; lra.
Qed.

Lemma exec_app (W : Type) (a b : list (event W)) : forall (s : world W),
  exec (a ++ b) s = bind (exec a s) (exec b).
Proof.
  induction a as [|e a IH]; intros s; simpl; [reflexivity|].
  destruct (step e s) as [s1|]; simpl; auto.
Qed.

Lemma self_cancel_third_run (s0 : world nat) (delay itv : Q) :
  0 <= delay -> 0 < itv ->
  queue (mt s0) = [] -> running (mt s0) = true -> hardStopped (mt s0) = false ->
  exited s0 = false -> env s0 = 0%nat ->
  exists s1 s',
    Post (cancel_self_at 3) delay itv s0 = Some (lastMessageID (mt s0), s1) /\
    self_cancel_inv 3 (lastMessageID (mt s0)) itv (delivered s0) s1 /\
    exec [EvElapse delay; EvRun; EvElapse itv; EvRun; EvElapse itv; EvRun] s1 = Some s' /\
    env s' = 3%nat /\ queue (mt s') = [] /\
    length (delivered s') = (length (delivered s0) + 3)%nat.
Proof.
  intros Hd Hitv Hq Hrun Hh Hex Henv.
  rewrite (Post_Some _ _ s0 Hd). set (s1 := with_mt _ s0).
  set (i := lastMessageID (mt s0)).
  set (d0 := if Qeq_bool delay 0 then 0 else now s0 + delay).
  assert (Hq1 : queue (mt s1) = [repeating 3 i itv d0]).
  { subst s1. simpl. rewrite Hq. reflexivity. }
  exists s1. 
  assert (Hdue0 : due (now s1 + delay) (repeating 3 i itv d0) = true).
  { unfold d0. destruct (Qeq_bool delay 0); [reflexivity|].
    apply due_le. cbn. lra. }
  destruct (@elapse_run_self_cancel 3 i itv d0 delay s1 Hitv Hrun Hh Hex Hq1 Hdue0)
    as (sa & Ha & Hea & Hra & Hha & Hxa & Hla & [(Hn & _)|(_ & da & Hqa & Hda)]).
  { change (env s1) with (env s0) in Hn. lia. }
  assert (Hdue1 : due (now sa + itv) (repeating 3 i itv da) = true).
  { apply due_le. exact Hda. }
  destruct (@elapse_run_self_cancel 3 i itv da itv sa Hitv Hra Hha Hxa Hqa Hdue1)
    as (sb & Hb & Heb & Hrb & Hhb & Hxb & Hlb & [(Hn & _)|(_ & db & Hqb & Hdb)]).
  { change (env s1) with (env s0) in Hea. lia. }
  assert (Hdue2 : due (now sb + itv) (repeating 3 i itv db) = true).
  { apply due_le. exact Hdb. }
  destruct (@elapse_run_self_cancel 3 i itv db itv sb Hitv Hrb Hhb Hxb Hqb Hdue2)
    as (sc & Hc & Hec & Hrc & Hhc & Hxc & Hlc & [(_ & Hqc)|(Hn & _)]).
  2:{ change (env s1) with (env s0) in Hea. lia. }
  exists sc. split; [reflexivity|]. split; [|split].
  - split; [exact Hh|]. split.
    + exists []. rewrite app_nil_r. simpl. auto.
    + left. change (env s1) with (env s0). rewrite Henv. split; [lia|]. eauto.
  - change [EvElapse delay; EvRun; EvElapse itv; EvRun; EvElapse itv; EvRun]
      with ([EvElapse delay; EvRun] ++ [EvElapse itv; EvRun] ++ [@EvElapse nat itv; EvRun]).
    rewrite exec_app, Ha. cbn [bind]. rewrite exec_app, Hb. cbn [bind]. exact Hc.
  - change (env s1) with (env s0) in Hea.
    change (delivered s1) with (delivered s0) in Hla.
    repeat split; auto; lia.
Qed.

(** C5. The loop body clears the self-cancel flag before it calls the
    callback, so what the flag held before plays no part; when the callback
    calls [CancelSelf] the loop body ends with the state the callback left
    and inserts nothing, whatever the interval of the message.  A repeating
    message whose callback calls [CancelSelf] during its third call: as long
    as only the worker acts, the callback has run at most three times, every
    run is a delivery of that message, and after the third run the queue is
    empty; when time passes as the message asks, the third run is reached. *)
Theorem C5_CancelSelf_stops_repetition :
  (forall (W : Type) (m : Message W) (s : world W) (b : bool),
     deliver_message m (with_mt (set_cancelCurrent b) s) = deliver_message m s /\
     cancelCurrent (mt (before_callback m s)) = false) /\
  (forall (W : Type) (m : Message W) (s : world W) (body : W -> prog W),
     func m = Some body -> calls_CancelSelf (body (env s)) ->
     deliver_message m s = call (func m) (before_callback m s)) /\
  (forall (s0 : world nat) (delay itv : Q),
     0 <= delay -> 0 < itv ->
     queue (mt s0) = [] -> running (mt s0) = true ->
     hardStopped (mt s0) = false -> exited s0 = false -> env s0 = 0%nat ->
     exists i s1,
       Post (cancel_self_at 3) delay itv s0 = Some (i, s1) /\
       (forall evs, Forall (@worker_only nat) evs ->
          exists s', exec evs s1 = Some s' /\
            (env s' <= 3)%nat /\
            (exists log, delivered s' = delivered s0 ++ log /\
                         length log = env s' /\
                         Forall (fun e => id (fst e) = i) log) /\
            (env s' = 3%nat -> queue (mt s') = [])) /\
       (exists s',
          exec [EvElapse delay; EvRun; EvElapse itv; EvRun; EvElapse itv; EvRun] s1
            = Some s' /\
          env s' = 3%nat /\ queue (mt s') = [] /\
          length (delivered s') = (length (delivered s0) + 3)%nat)).
Proof.
  split; [|split].
  - intros W m s b. split; reflexivity.
  - intros W m s body. apply deliver_message_CancelSelf.
  - intros s0 delay itv Hd Hitv Hq Hrun Hh Hex Henv.
    destruct (self_cancel_third_run s0 Hd Hitv Hq Hrun Hh Hex Henv)
      as (s1 & s' & HPost & Hinv & Hexec & Hlast).
    exists (lastMessageID (mt s0)), s1. split; [exact HPost|]. split.
    + intros evs Hevs.
      destruct (exec_self_cancel Hitv Hevs Hinv) as (s2 & Hs2 & _ & Hlog & Hcase).
      exists s2. split; [exact Hs2|]. split; [|split; [exact Hlog|]].
      * destruct Hcase as [(Hlt & _)|(Hn & _)]; lia.
      * intros H3. destruct Hcase as [(Hlt & _)|(_ & Hq2)]; [lia|exact Hq2].
    + exists s'. split; [exact Hexec|exact Hlast].
Qed.

(** * Examples *)

Lemma safe_note (n : nat) : safe_callback (note n).
Proof.
  intros body H. inversion H. subst. intros w. constructor.
Qed.

(** The claim C1 as the specification words it fails: the immediate message
    is delivered first (its callback leaves the mark 2 before the other
    leaves its 1) and carries the time 102 of its delivery, the message that
    was due at 101 follows it. *)
Lemma C1_stamped_order_counterexample :
  exists ids s1 s2,
    post_seq late_then_immediate (fresh []) = Some (ids, s1) /\
    Run_body s1 = Some (Continue, s2) /\
    env s2 = [2%nat; 1%nat] /\
    map (fun e => id (fst e)) (delivered s2) = [2%N; 1%N] /\
    map snd (delivered s2) = [102; 101] /\
    ~ StronglySorted Qle (map snd (delivered s2)).
Proof.
  do 3 eexists. split; [reflexivity|]. split; [reflexivity|].
  split; [reflexivity|]. split; [reflexivity|]. split; [reflexivity|].
  intros H. inversion H as [|? ? _ Hall]. inversion Hall as [|? ? Hle _].
  revert Hle. unfold Qle. simpl. lia.
Qed.

(** The order holds batch by batch and not across iterations: a repeating
    message found late (due at 100, interval 1, found at 110) comes back
    with 101 after a message with 105 has been delivered. *)
Lemma late_repetition_follows_later_message :
  exists s',
    exec [EvPost (note 1) 100 1; EvPost (note 2) 105 0; EvElapse 110; EvRun; EvRun]
         (fresh []) = Some s' /\
    env s' = [1%nat; 2%nat; 1%nat] /\
    map snd (delivered s') = [100; 105; 100 + 1].
Proof.
  eexists. split; [reflexivity|]. split; reflexivity.
Qed.

Lemma C1_delivery_in_queue_order_witness :
  exists ids s1 s2 log,
    post_seq late_then_immediate (fresh []) = Some (ids, s1) /\
    Run_body (advance 0 s1) = Some (Continue, s2) /\
    delivered s2 = delivered (fresh []) ++ log /\
    ascending (map fst log) /\
    (forall k, with_key k (map fst log) =
               with_key k (filter (due (now s1 + 0))
                                  (queue (mt (fresh [])) ++
                                   posted late_then_immediate (fresh [])))) /\
    Forall (fun e => ~ deliverAt (fst e) == 0 -> snd e = deliverAt (fst e)) log.
Proof.
  apply (@C1_delivery_in_queue_order (list nat) late_then_immediate (fresh []) 0).
  - constructor.
  - constructor.
  - reflexivity.
  - reflexivity.
  - repeat constructor; simpl; lra.
  - constructor; [exact (@safe_note 1%nat)|]. constructor; [exact (@safe_note 2%nat)|]. constructor.
Defined.

Lemma C2_queue_sorted_insertion_stable_witness :
  exists s',
    exec [EvPost (note 1) 1 0; EvPost (note 2) 0 0; EvPost (note 3) 1 0] (fresh [])
      = Some s' /\
    map id (queue (mt s')) = [2%N; 1%N; 3%N] /\
    ascending (queue (mt s')) /\
    exists l1 l2,
      queue (mt s') = l1 ++ l2 /\
      InsertMessageInternal (queue (mt s')) (mkMessage 9 1 0 None) =
        l1 ++ mkMessage 9 1 0 None :: l2 /\
      Forall (fun x => deliverAt x <= 1) l1 /\
      Forall (fun x => 1 < deliverAt x) l2 /\
      ascending (InsertMessageInternal (queue (mt s')) (mkMessage 9 1 0 None)).
Proof.
  eexists. split; [reflexivity|]. split; [reflexivity|].
  apply (@C2_queue_sorted_insertion_stable (list nat)
           [EvPost (note 1) 1 0; EvPost (note 2) 0 0; EvPost (note 3) 1 0] (fresh [])).
  - constructor.
  - reflexivity.
Defined.

(** The claim C3 as the specification words it fails when the 32-bit
    counter wraps: the message posted after the one with id 4294967295 gets
    the id 0. *)
Lemma C3_id_wraps_counterexample :
  exists ids s1 i s2,
    post_seq [mkPostCall 0 (note 1) 0 0] about_to_wrap = Some (ids, s1) /\
    Post (note 2) 0 0 s1 = Some (i, s2) /\
    ids = [4294967295%N] /\ i = 0%N /\
    ~ Forall (fun j => (j < i)%N) ids.
Proof.
  do 4 eexists. split; [reflexivity|]. split; [reflexivity|].
  split; [reflexivity|]. split; [reflexivity|].
  intros H. inversion H as [|? ? Hlt _]. vm_compute in Hlt. discriminate Hlt.
Qed.

Lemma C3_Post_deliverAt_and_fresh_id_witness :
  exists ids s1 s2,
    post_seq late_then_immediate (fresh []) = Some (ids, s1) /\
    Post (note 3) 3 0 s1 = Some (lastMessageID (mt s1), s2) /\
    (let m := mkMessage (lastMessageID (mt s1))
                        (if Qeq_bool 3 0 then 0 else now s1 + 3) 0 (note 3) in
     queue (mt s2) = InsertMessageInternal (queue (mt s1)) m /\
     In m (queue (mt s2))) /\
    Forall (fun j => (j < lastMessageID (mt s1))%N) ids /\
    StronglySorted N.lt ids.
Proof.
  apply (@C3_Post_deliverAt_and_fresh_id (list nat) late_then_immediate (fresh [])
           (note 3) 3 0).
  - repeat constructor; simpl; lra.
  - lra.
  - reflexivity.
Defined.

Lemma C5_CancelSelf_stops_repetition_witness :
  exists i s1 s',
    Post (cancel_self_at 3) 0 (1 # 100) (fresh 0%nat) = Some (i, s1) /\
    exec [EvElapse 0; EvRun; EvElapse (1 # 100); EvRun; EvElapse (1 # 100); EvRun] s1
      = Some s' /\
    env s' = 3%nat /\ queue (mt s') = [] /\
    length (delivered s') = 3%nat.
Proof.
  destruct C5_CancelSelf_stops_repetition as (_ & _ & H).
  destruct (H (fresh 0%nat) 0 (1 # 100)) as (i & s1 & HPost & _ & s' & Hexec & Hlast);
    try reflexivity; try lra.
  exists i, s1, s'. split; [exact HPost|]. split; [exact Hexec|exact Hlast].
Defined.



Lemma C7_HardStop_no_callback_after_witness :
  exists s',
    exec [EvRun; EvPost (note 2) 0 0; EvElapse 1; EvRun] hard_stopped_in_flight
      = Some s' /\
    delivered s' = delivered hard_stopped_in_flight /\
    env s' = [] /\
    Run_body hard_stopped_in_flight = Some (Break, drained hard_stopped_in_flight) /\
    queue (mt (drained hard_stopped_in_flight)) = [].
Proof.
  eexists. split; [reflexivity|].
  destruct (@C7_HardStop_no_callback_after (list nat)
              [EvRun; EvPost (note 2) 0 0; EvElapse 1; EvRun]
              hard_stopped_in_flight _ eq_refl eq_refl)
    as ((Hd & He & _) & Hbody & _).
  split; [exact Hd|]. split; [exact He|]. split; [exact Hbody|reflexivity].
Defined.

Lemma C8_Stop_empties_and_loop_exits_witness :
  running (mt stopped_then_posted) = false /\
  Run_body stopped_then_posted = Some (Break, stopped_then_posted) /\
  Run_iteration stopped_then_posted = Some (set_exited true stopped_then_posted) /\
  queue (mt (with_mt (@Stop (list nat)) hard_stopped_in_flight)) = [].
Proof.
  destruct (@C8_Stop_empties_and_loop_exits (list nat) hard_stopped_in_flight
              stopped_then_posted eq_refl)
    as ((_ & Hq & _) & _ & _ & Hbody & Hiter).
  split; [reflexivity|]. split; [exact Hbody|]. split; [exact Hiter|exact Hq].
Defined.

Lemma posts_at_most_note (k n : nat) : posts_at_most k (note n).
Proof.
  intros body H. inversion H. subst. intros w. constructor.
Qed.


(** * Further properties of MessageThread *)

(** ** Insertion and draining keep the messages *)

(** X1. [InsertMessageInternal] puts the new message between two parts of
    the queue it finds, whatever the order of that queue: no message is
    lost, doubled or moved past another. *)
Theorem InsertMessageInternal_keeps_messages
  (W : Type) (q : list (Message W)) (m : Message W) :
  (exists l1 l2, q = l1 ++ l2 /\ InsertMessageInternal q m = l1 ++ m :: l2) /\
  Permutation (InsertMessageInternal q m) (m :: q) /\
  length (InsertMessageInternal q m) = S (length q).
Proof.
  rewrite InsertMessageInternal_place.
  destruct (place_split m q) as (l1 & l2 & Hq & Hp & _).
  rewrite Hp, Hq. split; [|split].
  - exists l1, l2. auto.
  - symmetry. apply Permutation_middle.
  - rewrite !length_app. simpl. lia.
Qed.

Lemma due_downward (W : Type) (t : Q) (a b : Message W) :
  0 <= t -> deliverAt a <= deliverAt b -> due t b = true -> due t a = true.
Proof.
  unfold due. intros Ht Hab Hb. apply orb_true_iff in Hb.
  apply orb_true_iff. right. apply Qgeb_true.
  destruct Hb as [Hb|Hb].
  - apply Qeq_bool_iff in Hb. lra.
  - apply Qgeb_true in Hb. lra.
Qed.

Lemma filter_none (A : Type) (f : A -> bool) (l : list A) :
  Forall (fun y => f y = false) l ->
  filter f l = [] /\ filter (fun x => negb (f x)) l = l.
Proof.
  induction 1 as [|y l Hy _ [IH1 IH2]]; simpl; [auto|].
  rewrite Hy. simpl. rewrite IH1, IH2. auto.
Qed.

(** In a sorted queue the messages that pass a test which every earlier
    message passes with a later one stand in front of the others. *)
Lemma filter_prefix (W : Type) (f : Message W -> bool) : forall q : list (Message W),
  ascending q ->
  (forall a b, deliverAt a <= deliverAt b -> f b = true -> f a = true) ->
  q = filter f q ++ filter (fun x => negb (f x)) q.
Proof.
  induction q as [|x q IH]; intros Hq Hdown; [reflexivity|].
  inversion Hq as [|? ? Hs Hall]; subst. simpl.
  destruct (f x) eqn:Ex; simpl.
  - f_equal. now apply IH.
  - assert (Hnone : Forall (fun y => f y = false) q).
    { eapply Forall_impl; [|exact Hall]. intros y Hy.
      destruct (f y) eqn:Ey; auto.
      rewrite (Hdown x y Hy Ey) in Ex. discriminate. }
    destruct (@filter_none _ f q Hnone) as [-> ->]. reflexivity.
Qed.

Lemma filter_partition_Permutation (A : Type) (f : A -> bool) (l : list A) :
  Permutation (filter f l ++ filter (fun x => negb (f x)) l) l.
Proof.
  induction l as [|x l IH]; simpl; [constructor|].
  destruct (f x); simpl.
  - now constructor.
  - rewrite <- Permutation_middle. now constructor.
Qed.

(** X2. The loop of lines 103-110 splits the queue into the messages that
    are due, which form the batch, and the others, which stay, each part in
    the order of the queue; and when the queue is sorted and the clock is
    not negative the batch is the front of the queue. *)
Theorem drain_takes_the_due_front
  (W : Type) (t : Q) (q : list (Message W)) :
  ascending q -> 0 <= t ->
  Forall (fun m => due t m = true) (fst (drain t q)) /\
  Forall (fun m => due t m = false) (snd (drain t q)) /\
  Permutation (fst (drain t q) ++ snd (drain t q)) q /\
  q = fst (drain t q) ++ snd (drain t q) /\
  (forall m, In m q -> due t m = true -> In m (fst (drain t q))).
Proof.
  intros Hq Ht. rewrite drain_filter. simpl. repeat split.
  - apply Forall_forall. intros m Hm. apply filter_In in Hm. tauto.
  - apply Forall_forall. intros m Hm. apply filter_In in Hm.
    destruct Hm as [_ Hm]. now apply negb_true_iff.
  - apply filter_partition_Permutation.
  - apply filter_prefix; auto. intros a b. now apply due_downward.
  - intros m Hm Hd. apply filter_In. auto.
Qed.

(** ** The wait *)

Lemma ascending_head_least (W : Type) (q0 : Message W) (q : list (Message W)) (m : Message W) :
  ascending (q0 :: q) -> In m (q0 :: q) -> deliverAt q0 <= deliverAt m.
Proof.
  intros Hq [Hm|Hm].
  - subst. lra.
  - inversion Hq as [|? ? _ Hall]; subst. rewrite Forall_forall in Hall.
    now apply Hall.
Qed.

Lemma DBL_MAX_positive : 0 < DBL_MAX.
Proof. vm_compute. reflexivity. Qed.


(** ** Posting and cancelling *)

Lemma erase_id_place (W : Type) (m : Message W) : forall q : list (Message W),
  erase_id (id m) (place m q) = erase_id (id m) q.
Proof.
  induction q as [|x q IH]; simpl.
  - rewrite N.eqb_refl. reflexivity.
  - destruct (Qgtb (deliverAt x) (deliverAt m)); simpl.
    + rewrite N.eqb_refl. reflexivity.
    + rewrite IH. reflexivity.
Qed.

(** X5. A message that is posted and cancelled with the id [Post] returned,
    before the worker has taken it, leaves the queue as it was, provided the
    id was not in the queue already; it is in no batch any more. *)
Theorem Post_then_Cancel_restores_the_queue
  (W : Type) (f : callback W) (delay itv : Q) (s : world W) :
  0 <= delay ->
  Forall (fun x => id x <> lastMessageID (mt s)) (queue (mt s)) ->
  exists i s1,
    Post f delay itv s = Some (i, s1) /\
    In (new_message f delay itv s) (queue (mt s1)) /\
    queue (Cancel i (mt s1)) = queue (mt s) /\
    forall t, Forall (fun x => id x <> i) (fst (drain t (queue (Cancel i (mt s1))))).
Proof.
  intros Hd Hfresh. rewrite (Post_Some _ _ s Hd).
  eexists. eexists. split; [reflexivity|]. cbn [mt with_mt queue Cancel set_queue].
  split; [apply In_InsertMessageInternal|].
  assert (Hq : erase_id (lastMessageID (mt s))
                 (InsertMessageInternal (queue (mt s)) (new_message f delay itv s))
               = queue (mt s)).
  { rewrite InsertMessageInternal_place.
    change (lastMessageID (mt s)) with (id (new_message f delay itv s)) at 1.
    rewrite erase_id_place. now apply erase_id_absent. }
  split; [exact Hq|].
  intros t. rewrite Hq, drain_filter. cbn [fst].
  apply Forall_forall. intros x Hx. apply filter_In in Hx.
  rewrite Forall_forall in Hfresh. now apply Hfresh.
Qed.

Lemma erase_id_twice (W : Type) (i j : N) (q : list (Message W)) :
  erase_id i (erase_id j q) = erase_id j (erase_id i q).
Proof.
  induction q as [|x q IH]; simpl; [reflexivity|].
  destruct (N.eqb (id x) j) eqn:Ej, (N.eqb (id x) i) eqn:Ei; simpl;
    rewrite ?Ej, ?Ei, IH; reflexivity.
Qed.

(** X6. Cancelling twice is cancelling once, the order of two cancellations
    does not matter, and cancelling never makes the queue longer. *)
Theorem Cancel_is_idempotent_and_commutes
  (W : Type) (i j : N) (t : MessageThread W) :
  Cancel i (Cancel i t) = Cancel i t /\
  Cancel i (Cancel j t) = Cancel j (Cancel i t) /\
  (length (queue (Cancel i t)) <= length (queue t))%nat.
Proof.
  unfold Cancel, set_queue. cbn [queue running hardStopped lastMessageID cancelCurrent].
  split; [|split].
  - rewrite (erase_id_absent (erase_id_gone i (queue t))). reflexivity.
  - rewrite erase_id_twice. reflexivity.
  - rewrite erase_id_filter. apply filter_length_le.
Qed.

(** X7. With a clock that is not negative, a call of [Post] with a delay
    that is not zero never stores the [deliverAt] 0 that marks an immediate
    message, and the message it builds is in the batch of an iteration
    exactly when the delay was zero or the clock of that iteration has
    reached the [deliverAt] that [Post] stored: the message is neither taken
    for an immediate one nor passed over. *)
Theorem posted_message_is_due_from_its_time
  (W : Type) (f : callback W) (delay itv : Q) (s : world W) (t : Q) :
  0 <= now s -> 0 <= delay ->
  exists i s1,
    Post f delay itv s = Some (i, s1) /\
    (~ delay == 0 -> ~ deliverAt (new_message f delay itv s) == 0) /\
    (In (new_message f delay itv s) (fst (drain t (queue (mt s1)))) <->
     (delay == 0 \/ deliverAt (new_message f delay itv s) <= t)).
Proof.
  intros Hnow Hd. rewrite (Post_Some _ _ s Hd).
  eexists. eexists. split; [reflexivity|]. cbn [mt with_mt queue].
  assert (Hin : In (new_message f delay itv s)
                   (InsertMessageInternal (queue (mt s)) (new_message f delay itv s)))
    by apply In_InsertMessageInternal.
  assert (Hstored : ~ delay == 0 -> ~ deliverAt (new_message f delay itv s) == 0).
  { intros Hne. unfold new_message. cbn [deliverAt].
    destruct (Qeq_bool delay 0) eqn:E.
    - apply Qeq_bool_iff in E. contradiction.
    - lra. }
  split; [exact Hstored|].
  rewrite drain_filter. cbn [fst]. rewrite filter_In. unfold due.
  destruct (Qeq_bool delay 0) eqn:E.
  - apply Qeq_bool_iff in E. split; [auto|]. intros _. split; [exact Hin|].
    unfold new_message. cbn [deliverAt].
    rewrite (proj2 (Qeq_bool_iff delay 0) E). reflexivity.
  - assert (Hne : ~ delay == 0) by (now apply Qeq_bool_neq).
    split.
    + intros [_ H]. right. apply orb_true_iff in H. destruct H as [H|H].
      * apply Qeq_bool_iff in H. exfalso. now apply (Hstored Hne).
      * now apply Qgeb_true.
    + intros [H|H]; [contradiction|]. split; [exact Hin|].
      apply orb_true_iff. right. now apply Qgeb_true.
Qed.

(** ** Iterations that find nothing to do *)

Lemma with_mt_set_queue_same (W : Type) (s : world W) :
  with_mt (set_queue (queue (mt s))) s = s.
Proof. destruct s as [[r h q l c] n w d e]. reflexivity. Qed.

(** X8. A wake-up that finds no message due changes nothing: the queue,
    the flags, the record of deliveries and the captured state are as
    before, and the loop goes on. *)
Theorem wakeup_with_nothing_due_changes_nothing (W : Type) (s : world W) :
  running (mt s) = true ->
  hardStopped (mt s) = false ->
  Forall (fun m => due (now s) m = false) (queue (mt s)) ->
  Run_body s = Some (Continue, s) /\
  Run_iteration s = Some s.
Proof.
  intros Hr Hh Hnone.
  assert (Hd : drain (now s) (queue (mt s)) = ([], queue (mt s))).
  { rewrite drain_filter. destruct (@filter_none _ _ _ Hnone) as [-> ->]. reflexivity. }
  assert (Hbody : Run_body s = Some (Continue, s)).
  { unfold Run_body, drained. rewrite Hr, Hd. cbn [negb fst snd].
    rewrite with_mt_set_queue_same, Hh. reflexivity. }
  split; [exact Hbody|].
  unfold Run_iteration. rewrite Hr, Hbody. destruct (exited s); reflexivity.
Qed.

Lemma step_stopped (W : Type) (e : event W) (s s' : world W) :
  running (mt s) = false -> step e s = Some s' ->
  running (mt s') = false /\ delivered s' = delivered s /\ env s' = env s.
Proof.
  intros Hr. destruct e as [f delay itv|i| | |d|]; simpl; intros H.
  - apply bind_Some in H. destruct H as (r & Hp & H). inversion H.
    invert_Post Hp. simpl. auto.
  - inversion H. simpl. auto.
  - inversion H. simpl. auto.
  - inversion H. simpl. auto.
  - inversion H. simpl. auto.
  - unfold Run_iteration in H. rewrite Hr in H.
    destruct (exited s); inversion H; subst; simpl; auto.
Qed.

(** X9. Nothing sets [running] again: once it is false (after [Stop], after
    [HardStop]) no run delivers a message or calls a callback, whatever is
    posted afterwards, and the first iteration of the loop is its last. *)
Theorem stopped_scheduler_never_delivers
  (W : Type) (evs : list (event W)) (s s' : world W) :
  running (mt s) = false ->
  exec evs s = Some s' ->
  running (mt s') = false /\ delivered s' = delivered s /\ env s' = env s /\
  (In EvRun evs -> exited s' = true).
Proof.
  revert s. induction evs as [|e evs IH]; simpl; intros s Hr H.
  - inversion H. subst. repeat split; auto.
  - apply bind_Some in H. destruct H as (s1 & He & H).
    destruct (@step_stopped W e s s1 Hr He) as (Hr1 & Hd1 & He1).
    destruct (IH s1 Hr1 H) as (Hr' & Hd' & He' & Hx').
    rewrite Hd', He'. repeat split; auto.
    intros [Hrun|Hin]; [|auto]. subst e. simpl in He.
    assert (Hex1 : exited s1 = true).
    { unfold Run_iteration in He. rewrite Hr in He.
      destruct (exited s) eqn:Ex; inversion He; subst; auto. }
    clear - Hex1 H. revert s1 Hex1 H.
    induction evs as [|e evs IH2]; simpl; intros s1 Hex1 H.
    + inversion H. subst. exact Hex1.
    + apply bind_Some in H. destruct H as (s2 & He & H).
      apply (IH2 s2); [|exact H].
      destruct e as [f delay itv|i| | |d|]; simpl in He.
      * apply bind_Some in He. destruct He as (r & Hp & He). inversion He.
        invert_Post Hp. exact Hex1.
      * inversion He. exact Hex1.
      * inversion He. exact Hex1.
      * inversion He. exact Hex1.
      * inversion He. exact Hex1.
      * unfold Run_iteration in He. rewrite Hex1 in He. inversion He. subst. exact Hex1.
Qed.

(** ** Distinct identifiers *)

Section Tidy.

Variable W : Type.
Variable avoid : N -> Prop.
Implicit Types (m : Message W) (l q : list (Message W)) (s : world W) (c : N).

Lemma tidy_Permutation c l l' :
  Permutation l l' -> tidy avoid c l -> tidy avoid c l'.
Proof.
  intros Hp (Hnd & Hall & Hav). repeat split; auto.
  - eapply Permutation_NoDup; [|exact Hnd]. now apply Permutation_map.
  - eapply Permutation_Forall; eauto.
Qed.

Lemma tidy_app_l c l l' : tidy avoid c (l ++ l') -> tidy avoid c l.
Proof.
  intros (Hnd & Hall & Hav). repeat split; auto.
  - rewrite map_app in Hnd. eapply NoDup_app_remove_r; eauto.
  - apply Forall_app in Hall. tauto.
Qed.

(** What is left of tidy messages when some are taken away is tidy. *)
Lemma tidy_rest c l l' gone :
  Permutation (l' ++ gone) l -> tidy avoid c l -> tidy avoid c l'.
Proof.
  intros Hp Ht. apply tidy_app_l with (l' := gone).
  eapply tidy_Permutation; [symmetry; exact Hp|exact Ht].
Qed.

Lemma tidy_same_id c m m' l :
  id m' = id m -> func m' = func m ->
  tidy avoid c (m :: l) -> tidy avoid c (m' :: l).
Proof.
  intros Hid Hf (Hnd & Hall & Hav). simpl in Hnd.
  inversion Hall as [|? ? Hm Hl]; subst. repeat split; auto.
  - simpl. rewrite Hid. exact Hnd.
  - constructor; auto. rewrite Hid, Hf. exact Hm.
Qed.

Lemma tidy_nil c : (forall i, avoid i -> (i < c)%N) -> tidy avoid c (@nil (Message W)).
Proof. intros H. repeat split; auto. constructor. Qed.

(** A callback that does not post only takes messages out of the queue. *)
Lemma run_prog_quiet (p : prog W) :
  quiet p ->
  forall s, exists s' gone,
    run_prog p s = Some s' /\
    Permutation (queue (mt s') ++ gone) (queue (mt s)) /\
    lastMessageID (mt s') = lastMessageID (mt s) /\
    delivered s' = delivered s /\
    running (mt s') = running (mt s) /\
    hardStopped (mt s') = hardStopped (mt s) /\
    exited s' = exited s.
Proof.
  induction 1 as [w|i k Hk IH|k Hk IH|d k Hk IH]; intros s; simpl.
  - exists (set_env w s), []. rewrite app_nil_r. repeat split; auto.
  - destruct (IH (with_mt (Cancel i) s))
      as (s' & gone & Hrun & Hp & Hc & Hd & Hr & Hh & Hx).
    exists s', (gone ++ filter (fun x => N.eqb (id x) i) (queue (mt s))).
    split; [exact Hrun|]. split; [|auto].
    rewrite app_assoc, Hp. cbn [mt with_mt queue Cancel set_queue].
    rewrite erase_id_filter.
    rewrite <- (filter_partition_Permutation (fun x => negb (N.eqb (id x) i))
                  (queue (mt s))) at 3.
    apply Permutation_app_head.
    erewrite filter_ext; [reflexivity|]. intros x. simpl. now rewrite negb_involutive.
  - destruct (IH (with_mt (@CancelSelf W) s))
      as (s' & gone & Hrun & Hp & Hc & Hd & Hr & Hh & Hx).
    exists s', gone. auto 10.
  - destruct (IH (advance d s))
      as (s' & gone & Hrun & Hp & Hc & Hd & Hr & Hh & Hx).
    exists s', gone. auto 10.
Qed.

End Tidy.

Lemma InsertMessageInternal_Permutation (W : Type) (q : list (Message W)) (m : Message W) :
  Permutation (InsertMessageInternal q m) (m :: q).
Proof.
  rewrite InsertMessageInternal_place.
  destruct (place_split m q) as (l1 & l2 & Hq & Hp & _).
  rewrite Hp, Hq. symmetry. apply Permutation_middle.
Qed.

Section TidyRuns.

Variable W : Type.
Variable avoid : N -> Prop.
Implicit Types (m : Message W) (l q : list (Message W)) (s : world W) (c : N).

Lemma call_quiet (f : callback W) s :
  quiet_callback f ->
  exists s' gone,
    call f s = Some s' /\
    Permutation (queue (mt s') ++ gone) (queue (mt s)) /\
    delivered s' = delivered s /\ same_frame s s'.
Proof.
  intros Hf. destruct f as [body|]; simpl.
  - destruct (@run_prog_quiet W (body (env s)) (Hf body eq_refl (env s)) s)
      as (s' & gone & Hrun & Hp & Hc & Hd & Hr & Hh & Hx).
    exists s', gone. unfold same_frame. auto 10.
  - exists s, []. rewrite app_nil_r. unfold same_frame. auto 10.
Qed.

Lemma deliver_message_tidy c m rest s :
  tidy avoid c (m :: rest ++ queue (mt s)) ->
  exists s',
    deliver_message m s = Some s' /\
    tidy avoid c (rest ++ queue (mt s')) /\
    delivered s' = delivered s ++ [(m, deliverAt (stamped m s))] /\
    same_frame s s'.
Proof.
  intros Ht.
  assert (Hq : quiet_callback (func m)).
  { destruct Ht as (_ & Hall & _). inversion Hall as [|? ? Hm _]. tauto. }
  destruct (@call_quiet (func m) (before_callback m s) Hq) as (s2 & gone & Hcall & Hp & Hd & Hfr).
  change (queue (mt (before_callback m s))) with (queue (mt s)) in Hp.
  assert (Hfr' : same_frame s s2) by exact Hfr.
  assert (Ht2 : tidy avoid c (m :: rest ++ queue (mt s2))).
  { refine (@tidy_rest W avoid c (m :: rest ++ queue (mt s)) _ gone _ Ht).
    simpl. constructor. rewrite <- app_assoc. now apply Permutation_app_head. }
  unfold deliver_message. rewrite func_stamped, Hcall. cbn [bind].
  destruct (negb (cancelCurrent (mt s2)) && Qgtb (interval (stamped m s)) 0).
  - eexists. split; [reflexivity|]. split; [|split].
    + cbn [reinsert with_mt mt queue set_queue].
      refine (@tidy_Permutation W avoid c (repeated m s :: rest ++ queue (mt s2)) _ _ _).
      * rewrite InsertMessageInternal_Permutation. apply Permutation_middle.
      * refine (@tidy_same_id W avoid c m _ _ _ _ Ht2);
          [apply id_stamped|apply func_stamped].
    + simpl. rewrite Hd. reflexivity.
    + exact Hfr'.
  - exists s2. split; [reflexivity|]. split; [|split].
    + refine (@tidy_rest W avoid c (m :: rest ++ queue (mt s2)) _ [m] _ Ht2).
      rewrite <- Permutation_cons_append. reflexivity.
    + rewrite Hd. reflexivity.
    + exact Hfr'.
Qed.

Lemma same_frame_trans (s1 s2 s3 : world W) :
  same_frame s1 s2 -> same_frame s2 s3 -> same_frame s1 s3.
Proof.
  unfold same_frame. intros (A1 & A2 & A3 & A4) (B1 & B2 & B3 & B4).
  repeat split; congruence.
Qed.

Lemma deliver_batch_tidy c : forall l s,
  tidy avoid c (l ++ queue (mt s)) ->
  exists s' log,
    deliver_batch l s = Some s' /\
    tidy avoid c (queue (mt s')) /\
    delivered s' = delivered s ++ log /\ map fst log = l /\
    same_frame s s'.
Proof.
  induction l as [|m l IH]; intros s Ht.
  - exists s, []. rewrite app_nil_r. unfold same_frame. auto 10.
  - destruct (@deliver_message_tidy c m l s Ht) as (s1 & Hm & Ht1 & Hd1 & Hf1).
    destruct (IH s1 Ht1) as (s' & log & Hb & Ht' & Hd' & Hfst & Hf').
    exists s', ((m, deliverAt (stamped m s)) :: log). simpl. rewrite Hm. cbn [bind].
    split; [exact Hb|]. split; [exact Ht'|]. split; [|split].
    + rewrite Hd', Hd1, <- app_assoc. reflexivity.
    + congruence.
    + eapply same_frame_trans; eauto.
Qed.

Lemma drain_Permutation (t : Q) q :
  Permutation (fst (drain t q) ++ snd (drain t q)) q.
Proof. rewrite drain_filter. apply filter_partition_Permutation. Qed.

Lemma tidy_not_avoided c l :
  tidy avoid c l -> Forall (fun m => ~ avoid (id m)) l.
Proof.
  intros (_ & Hall & _). eapply Forall_impl; [|exact Hall]. simpl. tauto.
Qed.

Lemma Run_iteration_tidy c s :
  tidy avoid c (queue (mt s)) ->
  exists s' log,
    Run_iteration s = Some s' /\
    tidy avoid c (queue (mt s')) /\
    lastMessageID (mt s') = lastMessageID (mt s) /\
    delivered s' = delivered s ++ log /\
    Forall (fun e => ~ avoid (id (fst e))) log.
Proof.
  intros Ht. unfold Run_iteration.
  destruct (exited s).
  { exists s, []. rewrite app_nil_r. auto 10. }
  destruct (running (mt s)) eqn:Hr.
  2:{ eexists. exists []. split; [reflexivity|]. simpl. rewrite app_nil_r. auto 10. }
  unfold Run_body. rewrite Hr. cbn [negb].
  pose proof (drain_Permutation (now s) (queue (mt s))) as Hp.
  change (hardStopped (mt (drained s))) with (hardStopped (mt s)).
  destruct (hardStopped (mt s)).
  - eexists. exists []. split; [reflexivity|]. simpl. rewrite app_nil_r.
    split; [|auto].
    refine (@tidy_rest W avoid c _ _ (fst (drain (now s) (queue (mt s)))) _ Ht).
    cbn [drained with_mt mt queue set_queue].
    rewrite Permutation_app_comm. exact Hp.
  - assert (Htd : tidy avoid c (fst (drain (now s) (queue (mt s))) ++
                               queue (mt (drained s)))).
    { refine (@tidy_Permutation W avoid c _ _ _ Ht). symmetry. exact Hp. }
    destruct (@deliver_batch_tidy c _ _ Htd) as (s' & log & Hb & Ht' & Hd' & Hfst & Hf').
    rewrite Hb. cbn [bind fst snd]. exists s', log.
    split; [reflexivity|]. split; [exact Ht'|]. split; [apply Hf'|].
    split; [exact Hd'|].
    apply tidy_app_l in Htd. apply tidy_not_avoided in Htd.
    rewrite <- Hfst in Htd. rewrite Forall_map in Htd. exact Htd.
Qed.

End TidyRuns.

Section TidyExec.

Variable W : Type.
Variable avoid : N -> Prop.
Implicit Types (s : world W) (c : N).

Lemma Post_tidy (f : callback W) (delay itv : Q) s r :
  quiet_callback f ->
  (lastMessageID (mt s) + 1 < UINT32_MOD)%N ->
  tidy avoid (lastMessageID (mt s)) (queue (mt s)) ->
  Post f delay itv s = Some r ->
  tidy avoid (lastMessageID (mt (snd r))) (queue (mt (snd r))) /\
  lastMessageID (mt (snd r)) = (lastMessageID (mt s) + 1)%N /\
  delivered (snd r) = delivered s.
Proof.
  intros Hf Hwrap Ht Hp. invert_Post Hp. cbn [snd with_mt mt queue lastMessageID delivered].
  assert (Hc : ((lastMessageID (mt s) + 1) mod UINT32_MOD = lastMessageID (mt s) + 1)%N).
  { apply N.mod_small. exact Hwrap. }
  rewrite Hc. split; [|auto].
  refine (@tidy_Permutation W avoid _ (new_message f delay itv s :: queue (mt s)) _ _ _).
  { symmetry. apply InsertMessageInternal_Permutation. }
  destruct Ht as (Hnd & Hall & Hav). repeat split.
  - simpl. constructor; [|exact Hnd].
    intros Hin. apply in_map_iff in Hin. destruct Hin as (x & Hx & Hin).
    rewrite Forall_forall in Hall. destruct (Hall x Hin) as (Hlt & _). lia.
  - constructor.
    + cbn [new_message id func]. split; [lia|]. split; [|exact Hf].
      intros Ha. apply Hav in Ha. lia.
    + eapply Forall_impl; [|exact Hall]. simpl. intros x (Hlt & Hx). split; [lia|exact Hx].
  - intros i Hi. apply Hav in Hi. lia.
Qed.

Lemma step_tidy (e : event W) s s' :
  quiet_event e ->
  (lastMessageID (mt s) + N.of_nat (posts [e]) < UINT32_MOD)%N ->
  tidy avoid (lastMessageID (mt s)) (queue (mt s)) ->
  step e s = Some s' ->
  tidy avoid (lastMessageID (mt s')) (queue (mt s')) /\
  lastMessageID (mt s') = (lastMessageID (mt s) + N.of_nat (posts [e]))%N /\
  exists log, delivered s' = delivered s ++ log /\
              Forall (fun d => ~ avoid (id (fst d))) log.
Proof.
  intros He Hwrap Ht Hstep.
  assert (Hnil : forall x : world W, exists log,
             delivered x = delivered x ++ log /\
             Forall (fun d => ~ avoid (id (fst d))) log).
  { intros x. exists []. rewrite app_nil_r. auto. }
  destruct e as [f delay itv|i| | |d|]; simpl in Hstep, Hwrap, He |- *.
  - apply bind_Some in Hstep. destruct Hstep as (r & Hp & Hr). inversion Hr. subst s'.
    destruct (@Post_tidy f delay itv s r He Hwrap Ht Hp) as (Ht' & Hc & Hd).
    split; [exact Ht'|]. split; [exact Hc|]. rewrite Hd. apply Hnil.
  - inversion Hstep. subst s'. cbn [with_mt mt Cancel set_queue queue lastMessageID delivered].
    rewrite N.add_0_r. split; [|split; [reflexivity|apply Hnil]].
    rewrite erase_id_filter.
    refine (@tidy_rest W avoid _ _ _ (filter (fun x => negb (negb (N.eqb (id x) i)))
                                            (queue (mt s))) _ Ht).
    apply filter_partition_Permutation.
  - inversion Hstep. subst s'. cbn [with_mt mt Stop queue lastMessageID delivered].
    rewrite N.add_0_r. split; [|split; [reflexivity|apply Hnil]].
    apply tidy_nil. apply Ht.
  - inversion Hstep. subst s'. cbn [with_mt mt HardStop queue lastMessageID delivered].
    rewrite N.add_0_r. split; [|split; [reflexivity|apply Hnil]].
    apply tidy_nil. apply Ht.
  - inversion Hstep. subst s'. cbn [advance mt delivered].
    rewrite N.add_0_r. split; [exact Ht|split; [reflexivity|apply Hnil]].
  - destruct (@Run_iteration_tidy W avoid _ s Ht) as (s2 & log & Hrun & Ht2 & Hc & Hd & Hlog).
    rewrite Hrun in Hstep. inversion Hstep. subst s2.
    rewrite N.add_0_r, Hc. split; [exact Ht2|]. split; [reflexivity|].
    exists log. auto.
Qed.

Lemma exec_tidy : forall (evs : list (event W)) s s',
  Forall (@quiet_event W) evs ->
  (lastMessageID (mt s) + N.of_nat (posts evs) < UINT32_MOD)%N ->
  tidy avoid (lastMessageID (mt s)) (queue (mt s)) ->
  exec evs s = Some s' ->
  tidy avoid (lastMessageID (mt s')) (queue (mt s')) /\
  exists log, delivered s' = delivered s ++ log /\
              Forall (fun d => ~ avoid (id (fst d))) log.
Proof.
  induction evs as [|e evs IH]; intros s s' Hq Hwrap Ht Hexec.
  - inversion Hexec. subst s'. split; [exact Ht|].
    exists []. rewrite app_nil_r. auto.
  - inversion Hq as [|? ? He Hevs]; subst.
    simpl in Hexec. apply bind_Some in Hexec. destruct Hexec as (s1 & Hstep & Hexec).
    assert (Hsplit : posts (e :: evs) = (posts [e] + posts evs)%nat).
    { destruct e; reflexivity. }
    rewrite Hsplit, Nat2N.inj_add in Hwrap.
    destruct (@step_tidy e s s1 He) as (Ht1 & Hc1 & log1 & Hd1 & Hl1); auto; [lia|].
    destruct (IH s1 s' Hevs) as (Ht' & log & Hd' & Hl'); auto; [rewrite Hc1; lia|].
    split; [exact Ht'|]. exists (log1 ++ log).
    rewrite Hd', Hd1, <- app_assoc. split; [reflexivity|].
    apply Forall_app. auto.
Qed.

End TidyExec.

(** X10. As long as the 32-bit counter does not wrap and the callbacks do
    not post, the ids in the queue stay distinct and below the counter
    through every run: a queue holds at most one message of an id. *)
Theorem queue_ids_stay_distinct
  (W : Type) (evs : list (event W)) (s s' : world W) :
  NoDup (map id (queue (mt s))) ->
  Forall (fun m => (id m < lastMessageID (mt s))%N /\ quiet_callback (func m))
         (queue (mt s)) ->
  Forall (@quiet_event W) evs ->
  (lastMessageID (mt s) + N.of_nat (posts evs) < UINT32_MOD)%N ->
  exec evs s = Some s' ->
  NoDup (map id (queue (mt s'))) /\
  Forall (fun m => (id m < lastMessageID (mt s'))%N) (queue (mt s')).
Proof.
  intros Hnd Hall Hq Hwrap Hexec.
  assert (Ht : tidy (fun _ => False) (lastMessageID (mt s)) (queue (mt s))).
  { repeat split; [exact Hnd| |intros i []].
    eapply Forall_impl; [|exact Hall]. simpl. tauto. }
  destruct (@exec_tidy W (fun _ => False) evs s s' Hq Hwrap Ht Hexec)
    as ((Hnd' & Hall' & _) & _).
  split; [exact Hnd'|]. eapply Forall_impl; [|exact Hall']. simpl. tauto.
Qed.

(** X11. A message that is cancelled with the id [Post] returned, before the
    worker has taken it, is never delivered: in every run that follows, as
    long as the counter does not wrap and the callbacks do not post, no
    delivery carries that id. *)
Theorem cancelled_message_is_never_delivered
  (W : Type) (f : callback W) (delay itv : Q) (evs : list (event W))
  (s s1 s' : world W) (i : N) :
  NoDup (map id (queue (mt s))) ->
  Forall (fun m => (id m < lastMessageID (mt s))%N /\ quiet_callback (func m))
         (queue (mt s)) ->
  Forall (@quiet_event W) evs ->
  (lastMessageID (mt s) + 1 + N.of_nat (posts evs) < UINT32_MOD)%N ->
  Post f delay itv s = Some (i, s1) ->
  exec (EvCancel i :: evs) s1 = Some s' ->
  exists log,
    delivered s' = delivered s ++ log /\
    Forall (fun d => id (fst d) <> i) log.
Proof.
  intros Hnd Hall Hq Hwrap Hpost Hexec.
  pose proof Hpost as Hinv. apply Post_inv in Hinv. destruct Hinv as [Hd Hr].
  inversion Hr. subst i s1. clear Hr.
  simpl in Hexec.
  set (s2 := with_mt (Cancel (lastMessageID (mt s))) _) in Hexec.
  assert (Hc : ((lastMessageID (mt s) + 1) mod UINT32_MOD = lastMessageID (mt s) + 1)%N).
  { apply N.mod_small. lia. }
  assert (Hq2 : queue (mt s2) = queue (mt s)).
  { subst s2. cbn [with_mt mt Cancel set_queue queue].
    rewrite InsertMessageInternal_place.
    change (lastMessageID (mt s)) with (id (new_message f delay itv s)) at 1.
    rewrite erase_id_place. apply erase_id_absent.
    eapply Forall_impl; [|exact Hall]. simpl. intros x (Hlt & _). lia. }
  assert (Hc2 : lastMessageID (mt s2) = (lastMessageID (mt s) + 1)%N).
  { subst s2. cbn [with_mt mt Cancel set_queue lastMessageID]. exact Hc. }
  assert (Ht : tidy (eq (lastMessageID (mt s))) (lastMessageID (mt s2)) (queue (mt s2))).
  { rewrite Hq2, Hc2. repeat split; [exact Hnd| |intros j <-; lia].
    eapply Forall_impl; [|exact Hall]. simpl. intros x (Hlt & Hx).
    split; [lia|]. split; [lia|exact Hx]. }
  destruct (@exec_tidy W (eq (lastMessageID (mt s))) evs s2 s' Hq) as (_ & log & Hlog & Hok);
    auto; [rewrite Hc2; lia|].
  exists log. split; [exact Hlog|].
  eapply Forall_impl; [|exact Hok]. simpl. intros d H Heq. apply H. now symmetry.
Qed.

(** ** Messages that do not repeat *)

Section OneShot.

Variable W : Type.
Implicit Types (m x : Message W) (l q : list (Message W)) (s : world W).

(** After a delivery the queue holds what it held, less what the callback
    cancelled, and the delivered message again if it repeats. *)
Lemma deliver_message_ids m s s' :
  quiet_callback (func m) ->
  deliver_message m s = Some s' ->
  forall x, In x (queue (mt s')) ->
    In x (queue (mt s)) \/ (id x = id m /\ 0 < interval m).
Proof.
  intros Hq Hdel x Hx.
  destruct (@call_quiet W (func m) (before_callback m s) Hq)
    as (s2 & gone & Hcall & Hp & _).
  change (queue (mt (before_callback m s))) with (queue (mt s)) in Hp.
  assert (Hsub : forall y, In y (queue (mt s2)) -> In y (queue (mt s))).
  { intros y Hy. eapply Permutation_in; [exact Hp|]. apply in_or_app. now left. }
  apply deliver_message_inv in Hdel. destruct Hdel as (s3 & Hcall3 & Hcase).
  rewrite Hcall in Hcall3. inversion Hcall3. subst s3.
  destruct Hcase as [(_ & Hi & ->)|(_ & ->)]; [|left; auto].
  cbn [reinsert with_mt mt queue set_queue] in Hx.
  eapply Permutation_in in Hx; [|apply InsertMessageInternal_Permutation].
  destruct Hx as [Hx|Hx]; [|left; auto].
  right. subst x. split; [apply id_stamped|exact Hi].
Qed.

Lemma deliver_batch_ids : forall l s s',
  Forall (fun m => quiet_callback (func m)) l ->
  deliver_batch l s = Some s' ->
  forall x, In x (queue (mt s')) ->
    In x (queue (mt s)) \/ exists m, In m l /\ id x = id m /\ 0 < interval m.
Proof.
  induction l as [|m l IH]; simpl; intros s s' Hq Hb x Hx.
  - inversion Hb. subst. now left.
  - inversion Hq as [|? ? Hm Hl]; subst.
    apply bind_Some in Hb. destruct Hb as (s1 & Hd & Hb).
    destruct (IH s1 s' Hl Hb x Hx) as [H1|(m' & Hin & Hid & Hi)].
    + destruct (@deliver_message_ids m s s1 Hm Hd x H1) as [H0|(Hid & Hi)]; [now left|].
      right. exists m. auto.
    + right. exists m'. auto.
Qed.

(** The deliveries of one iteration are the batch, or none. *)
Lemma Run_iteration_log s s' :
  Run_iteration s = Some s' ->
  exists log,
    delivered s' = delivered s ++ log /\
    (log = [] \/ map fst log = fst (drain (now s) (queue (mt s)))).
Proof.
  unfold Run_iteration. intros H.
  assert (Hnil : forall z : world W, delivered z = delivered s ->
            exists log, delivered z = delivered s ++ log /\
              (log = [] \/ map fst log = fst (drain (now s) (queue (mt s))))).
  { intros z Hz. exists []. rewrite app_nil_r. auto. }
  destruct (exited s); [inversion H; subst; now apply Hnil|].
  destruct (running (mt s)) eqn:Erun; [|inversion H; subst; now apply Hnil].
  apply bind_Some in H. destruct H as (r & Hr & H).
  unfold Run_body in Hr. rewrite Erun in Hr. cbn [negb] in Hr. cbv zeta in Hr.
  change (hardStopped (mt (drained s))) with (hardStopped (mt s)) in Hr.
  destruct (hardStopped (mt s)).
  - injection Hr as <-. inversion H. subst. now apply Hnil.
  - apply bind_Some in Hr. destruct Hr as (s1 & Hb & Hr). injection Hr as <-.
    inversion H. subst s'.
    destruct (deliver_batch_delivered _ _ Hb) as (log & Hlog & Hfst & _).
    exists log. auto.
Qed.

(** When an iteration has delivered a message that does not repeat, no
    message of its id is in the queue. *)
Lemma one_shot_leaves_the_queue s s' log m :
  NoDup (map id (queue (mt s))) ->
  Forall (fun x => quiet_callback (func x)) (queue (mt s)) ->
  Run_iteration s = Some s' ->
  delivered s' = delivered s ++ log ->
  In m (map fst log) ->
  interval m <= 0 ->
  Forall (fun x => id x <> id m) (queue (mt s')) /\ In m (queue (mt s)) /\
  NoDup (map (fun d => id (fst d)) log).
Proof.
  intros Hnd Hq Hrun Hlog Hin Hone.
  destruct (@Run_iteration_log s s' Hrun) as (log' & Hlog' & Hcase).
  rewrite Hlog in Hlog'. apply app_inv_head in Hlog'. subst log'.
  destruct Hcase as [->|Hfst]; [contradiction|].
  rewrite Hfst in Hin.
  assert (Hmq : In m (queue (mt s))).
  { rewrite drain_filter in Hin. cbn [fst] in Hin. apply filter_In in Hin. tauto. }
  assert (Hbq : forall x, In x (fst (drain (now s) (queue (mt s)))) ->
                          In x (queue (mt s))).
  { intros x Hx. rewrite drain_filter in Hx. apply filter_In in Hx. tauto. }
  split; [|split; [exact Hmq|]].
  - unfold Run_iteration in Hrun.
    destruct (exited s).
    { inversion Hrun. subst s'. symmetry in Hlog. rewrite <- app_nil_r in Hlog.
      apply app_inv_head in Hlog. subst log. destruct Hfst. contradiction. }
    destruct (running (mt s)) eqn:Erun.
    2:{ inversion Hrun. subst s'. simpl in Hlog. symmetry in Hlog.
        rewrite <- app_nil_r in Hlog. apply app_inv_head in Hlog. subst log.
        simpl in Hfst. rewrite <- Hfst in Hin. contradiction. }
    apply bind_Some in Hrun. destruct Hrun as (r & Hr & Hrun).
    unfold Run_body in Hr. rewrite Erun in Hr. cbn [negb] in Hr. cbv zeta in Hr.
    change (hardStopped (mt (drained s))) with (hardStopped (mt s)) in Hr.
    pose proof (@drain_ids_apart W (now s) (queue (mt s)) m Hnd Hin) as Hapart.
    destruct (hardStopped (mt s)).
    + injection Hr as <-. inversion Hrun. subst s'. exact Hapart.
    + apply bind_Some in Hr. destruct Hr as (s1 & Hb & Hr). injection Hr as <-.
      inversion Hrun. subst s'. cbn [snd].
      assert (Hbquiet : Forall (fun x => quiet_callback (func x))
                               (fst (drain (now s) (queue (mt s))))).
      { apply Forall_forall. intros x Hx. rewrite Forall_forall in Hq. auto. }
      apply Forall_forall. intros x Hx Hid.
      destruct (@deliver_batch_ids _ _ _ Hbquiet Hb x Hx) as [H0|(m' & Hm' & Hid' & Hi)].
      * rewrite Forall_forall in Hapart. exact (Hapart x H0 Hid).
      * assert (m' = m).
        { eapply NoDup_map_eq; [exact Hnd|auto|auto|congruence]. }
        subst m'. lra.
  - replace (map (fun d => id (fst d)) log) with (map id (map fst log))
      by (rewrite map_map; reflexivity).
    rewrite Hfst, drain_filter. cbn [fst].
    clear - Hnd. induction (queue (mt s)) as [|x q IH]; simpl; [constructor|].
    inversion Hnd as [|? ? Hx Hq]; subst.
    destruct (due (now s) x); simpl; auto.
    constructor; auto. intros Hin. apply Hx.
    apply in_map_iff in Hin. destruct Hin as (y & Hy & Hin).
    apply filter_In in Hin. apply in_map_iff. exists y. tauto.
Qed.

End OneShot.

(** X15. A message that does not repeat is delivered once: the iteration
    that delivers it delivers no other message of its id, and no later
    delivery carries its id, as long as the counter does not wrap and the
    callbacks do not post. *)
Theorem one_shot_message_is_delivered_once
  (W : Type) (evs : list (event W)) (s s1 s' : world W)
  (log : list (Message W * Q)) (m : Message W) :
  NoDup (map id (queue (mt s))) ->
  Forall (fun x => (id x < lastMessageID (mt s))%N /\ quiet_callback (func x))
         (queue (mt s)) ->
  Run_iteration s = Some s1 ->
  delivered s1 = delivered s ++ log ->
  In m (map fst log) ->
  interval m <= 0 ->
  Forall (@quiet_event W) evs ->
  (lastMessageID (mt s) + N.of_nat (posts evs) < UINT32_MOD)%N ->
  exec evs s1 = Some s' ->
  NoDup (map (fun d => id (fst d)) log) /\
  exists later,
    delivered s' = delivered s1 ++ later /\
    Forall (fun d => id (fst d) <> id m) later.
Proof.
  intros Hnd Hall Hrun Hlog Hin Hone Hq Hwrap Hexec.
  assert (Hquiet : Forall (fun x => quiet_callback (func x)) (queue (mt s))).
  { eapply Forall_impl; [|exact Hall]. simpl. tauto. }
  destruct (@one_shot_leaves_the_queue W s s1 log m Hnd Hquiet Hrun Hlog Hin Hone)
    as (Hgone & Hmq & Hlognd).
  split; [exact Hlognd|].
  assert (Ht : tidy (fun _ => False) (lastMessageID (mt s)) (queue (mt s))).
  { repeat split; [exact Hnd| |intros i []].
    eapply Forall_impl; [|exact Hall]. simpl. tauto. }
  destruct (@Run_iteration_tidy W (fun _ => False) _ s Ht)
    as (s2 & log2 & Hrun2 & (Hnd1 & Hall1 & _) & Hc1 & _).
  rewrite Hrun in Hrun2. inversion Hrun2. subst s2.
  assert (Hidm : (id m < lastMessageID (mt s))%N).
  { rewrite Forall_forall in Hall. apply (Hall m Hmq). }
  assert (Ht1 : tidy (eq (id m)) (lastMessageID (mt s1)) (queue (mt s1))).
  { rewrite Hc1. repeat split; [exact Hnd1| |intros j <-; exact Hidm].
    rewrite Forall_forall in Hall1, Hgone |- *. intros x Hx.
    destruct (Hall1 x Hx) as (Hlt & _ & Hxq).
    split; [exact Hlt|]. split; [|exact Hxq].
    intros Heq. apply (Hgone x Hx). now symmetry. }
  destruct (@exec_tidy W (eq (id m)) evs s1 s' Hq) as (_ & later & Hlater & Hok);
    auto; [rewrite Hc1; exact Hwrap|].
  exists later. split; [exact Hlater|].
  eapply Forall_impl; [|exact Hok]. simpl. intros d H Heq. apply H. now symmetry.
Qed.

(** * Properties of the audio workers *)

Lemma alternates_app (b : bool) (l l' : list thread_call) :
  alternates b (l ++ l') = alternates b l && alternates (thread_alive b l) l'.
Proof.
  revert b. induction l as [|c l IH]; intros b; simpl; [reflexivity|].
  destruct c; rewrite IH, andb_assoc; reflexivity.
Qed.

Lemma thread_alive_app (b : bool) (l l' : list thread_call) :
  thread_alive b (l ++ l') = thread_alive (thread_alive b l) l'.
Proof.
  revert b. induction l as [|c l IH]; intros b; simpl; [reflexivity|].
  destruct c; apply IH.
Qed.

Lemma alternates_then_join (b : bool) (l : list thread_call) :
  alternates b l = true -> starts_when_dead b (l ++ [ThreadJoin]) = true.
Proof.
  revert b. induction l as [|c l IH]; intros b; simpl; [reflexivity|].
  destruct c; intros H; apply andb_true_iff in H; destruct H as [H1 H2].
  - rewrite H1. simpl. now apply IH.
  - now apply IH.
Qed.

Lemma input_run_alternates : forall (ops : list audio_op) (a : AudioInputCallback.state),
  AudioInputCallback.thread a = true ->
  (AudioInputCallback.recording a = true -> AudioInputCallback.running a = true) ->
  let r := AudioInputCallback.run ops a in
  alternates (AudioInputCallback.running a) (snd r) = true /\
  thread_alive (AudioInputCallback.running a) (snd r) = AudioInputCallback.running (fst r) /\
  AudioInputCallback.thread (fst r) = true /\
  (AudioInputCallback.recording (fst r) = true -> AudioInputCallback.running (fst r) = true).
Proof.
  induction ops as [|o ops IH]; intros a Hth Hrec; simpl.
  - auto.
  - destruct a as [run rec th]. simpl in Hth, Hrec. subst th.
    destruct o, run; simpl.
    + apply (IH (AudioInputCallback.mk true true true)); auto.
    + destruct (IH (AudioInputCallback.mk true true true) eq_refl (fun _ => eq_refl))
        as (H1 & H2 & H3 & H4). simpl in H1, H2. auto.
    + destruct (IH (AudioInputCallback.mk false false true) eq_refl)
        as (H1 & H2 & H3 & H4); [discriminate|]. simpl in H1, H2. auto.
    + destruct rec; [discriminate (Hrec eq_refl)|].
      apply (IH (AudioInputCallback.mk false false true)); auto.
Qed.

Lemma output_run_alternates : forall (ops : list audio_op) (a : AudioOutputCallback.state),
  AudioOutputCallback.thread a = true ->
  (AudioOutputCallback.playing a = true -> AudioOutputCallback.running a = true) ->
  let r := AudioOutputCallback.run ops a in
  alternates (AudioOutputCallback.running a) (snd r) = true /\
  thread_alive (AudioOutputCallback.running a) (snd r) = AudioOutputCallback.running (fst r) /\
  AudioOutputCallback.thread (fst r) = true /\
  (AudioOutputCallback.playing (fst r) = true -> AudioOutputCallback.running (fst r) = true).
Proof.
  induction ops as [|o ops IH]; intros a Hth Hrec; simpl.
  - auto.
  - destruct a as [run rec th]. simpl in Hth, Hrec. subst th.
    destruct o, run; simpl.
    + apply (IH (AudioOutputCallback.mk true true true)); auto.
    + destruct (IH (AudioOutputCallback.mk true true true) eq_refl (fun _ => eq_refl))
        as (H1 & H2 & H3 & H4). simpl in H1, H2. auto.
    + destruct (IH (AudioOutputCallback.mk false false true) eq_refl)
        as (H1 & H2 & H3 & H4); [discriminate|]. simpl in H1, H2. auto.
    + destruct rec; [discriminate (Hrec eq_refl)|].
      apply (IH (AudioOutputCallback.mk false false true)); auto.
Qed.

(** X12. Whatever sequence of [Start] and [Stop] the input worker and the
    output worker receive after construction, the thread is started only
    when it does not run and joined only when it does, it runs exactly when
    [running] is set, and [recording] (or [playing]) is set only while
    [running] is; the destructor then leaves both flags false and the
    pointer null, and the thread was never started while it ran. *)
Theorem audio_workers_start_and_join_in_turn (ops : list audio_op) :
  (let r := AudioInputCallback.run ops AudioInputCallback.create in
   let d := AudioInputCallback.destroy (fst r) in
   alternates false (snd r) = true /\
   thread_alive false (snd r) = AudioInputCallback.running (fst r) /\
   (AudioInputCallback.recording (fst r) = true ->
    AudioInputCallback.running (fst r) = true) /\
   fst d = AudioInputCallback.mk false false false /\
   starts_when_dead false (snd r ++ snd d) = true) /\
  (let r := AudioOutputCallback.run ops AudioOutputCallback.create in
   let d := AudioOutputCallback.destroy (fst r) in
   alternates false (snd r) = true /\
   thread_alive false (snd r) = AudioOutputCallback.running (fst r) /\
   (AudioOutputCallback.IsPlaying (fst r) = true ->
    AudioOutputCallback.running (fst r) = true) /\
   fst d = AudioOutputCallback.mk false false false /\
   starts_when_dead false (snd r ++ snd d) = true).
Proof.
  split.
  - destruct (input_run_alternates ops AudioInputCallback.create eq_refl)
      as (H1 & H2 & H3 & H4); [discriminate|].
    cbv zeta. simpl AudioInputCallback.running in H1, H2.
    unfold AudioInputCallback.destroy. cbn [AudioInputCallback.thread].
    rewrite H3. cbn [fst snd AudioInputCallback.running AudioInputCallback.recording].
    repeat split; auto. now apply alternates_then_join.
  - destruct (output_run_alternates ops AudioOutputCallback.create eq_refl)
      as (H1 & H2 & H3 & H4); [discriminate|].
    cbv zeta. simpl AudioOutputCallback.running in H1, H2.
    unfold AudioOutputCallback.destroy, AudioOutputCallback.IsPlaying.
    cbn [AudioOutputCallback.thread].
    rewrite H3. cbn [fst snd AudioOutputCallback.running AudioOutputCallback.playing].
    repeat split; auto. now apply alternates_then_join.
Qed.

(** X13. A second [Start] right after a [Start], and a second [Stop] right
    after a [Stop], change nothing and make no call on the thread; a [Stop]
    on a worker that does not run changes nothing either, so it does not
    clear [recording] or [playing]. *)
Theorem audio_Start_and_Stop_are_idempotent
  (a : AudioInputCallback.state) (b : AudioOutputCallback.state) :
  AudioInputCallback.Start (fst (AudioInputCallback.Start a))
    = (fst (AudioInputCallback.Start a), []) /\
  AudioInputCallback.Stop (fst (AudioInputCallback.Stop a))
    = (fst (AudioInputCallback.Stop a), []) /\
  AudioOutputCallback.Start (fst (AudioOutputCallback.Start b))
    = (fst (AudioOutputCallback.Start b), []) /\
  AudioOutputCallback.Stop (fst (AudioOutputCallback.Stop b))
    = (fst (AudioOutputCallback.Stop b), []) /\
  (AudioInputCallback.running a = false -> AudioInputCallback.Stop a = (a, [])) /\
  (AudioOutputCallback.running b = false -> AudioOutputCallback.Stop b = (b, [])).
Proof.
  destruct a as [r1 x1 t1], b as [r2 x2 t2].
  repeat split.
  - destruct r1; reflexivity.
  - destruct r1, t1; reflexivity.
  - destruct r2; reflexivity.
  - destruct r2, t2; reflexivity.
  - simpl. intros ->. reflexivity.
  - simpl. intros ->. reflexivity.
Qed.

(** ** The pause between two frames *)

Lemma sleep_loop_spec : forall (n fuel : nat) (running_at : nat -> bool) (k : nat) (sl : Q),
  sl <= inject_Z (Z.of_nat n) * (5 # 1000) ->
  (n < fuel)%nat ->
  exists sleeps,
    sleep_loop fuel running_at k sl = Some sleeps /\
    (length sleeps <= n)%nat /\
    Forall (fun d => 0 < d /\ d <= sleep_step) sleeps /\
    (sl <= 0 -> sleeps = []) /\
    (forall j, (k <= j)%nat -> running_at j = false -> (length sleeps <= j - k)%nat).
Proof.
  induction n as [|n IH]; intros fuel running_at k sl Hsl Hfuel.
  - destruct fuel as [|fuel]; [lia|].
    change (inject_Z (Z.of_nat 0)) with 0 in Hsl.
    assert (Hle : sl <= 0) by lra.
    simpl. rewrite (proj2 (Qgtb_false sl 0) Hle). simpl.
    exists []. split; [reflexivity|]. split; [simpl; lia|]. split; [constructor|].
    split; [reflexivity|]. intros; simpl; lia.
  - destruct fuel as [|fuel]; [lia|]. simpl sleep_loop.
    destruct (Qgtb sl 0) eqn:Egt; simpl andb.
    2:{ apply Qgtb_false in Egt.
        exists []. split; [reflexivity|]. split; [simpl; lia|]. split; [constructor|].
        split; [reflexivity|]. intros; simpl; lia. }
    apply Qgtb_true in Egt.
    destruct (running_at k) eqn:Erun.
    2:{ exists []. split; [reflexivity|]. split; [simpl; lia|]. split; [constructor|].
        split; [reflexivity|]. intros; simpl; lia. }
    rewrite Nat2Z.inj_succ, <- Z.add_1_r, inject_Z_plus in Hsl.
    change (inject_Z 1) with 1 in Hsl.
    destruct (IH fuel running_at (S k) (sl - sleep_step))
      as (sleeps & Hrun & Hlen & Hall & Hnil & Hstop);
      [unfold sleep_step; lra|lia|].
    rewrite Hrun. exists (Qmin sl sleep_step :: sleeps).
    split; [reflexivity|]. split; [simpl; lia|]. split; [|split].
    + constructor; [|exact Hall].
      destruct (Q.min_spec sl sleep_step) as [[_ Hmin]|[_ Hmin]]; rewrite Hmin.
      * split; [exact Egt|]. destruct (Qlt_le_dec sl sleep_step); [lra|].
        pose proof (Q.le_min_r sl sleep_step). rewrite Hmin in H. exact H.
      * split; [unfold sleep_step; lra|lra].
    + intros; lra.
    + intros j Hj Hfalse. destruct (Nat.eq_dec j k) as [->|Hne];
        [rewrite Hfalse in Erun; discriminate|].
      specialize (Hstop j ltac:(lia) Hfalse). simpl. lia.
Qed.

(** X14. When the clock has not gone back during the work, what is left of
    the frame is slept in at most four calls of [Thread::Sleep], each for a
    positive time of at most [step]; there is no pause when nothing is left
    of the frame; and when a read of [running] finds it cleared the pause
    ends there, with at most as many calls as there were reads before. *)
Theorem frame_pause_is_short_and_interruptible
  (running_at : nat -> bool) (t t_after : Q) :
  t <= t_after ->
  exists sleeps,
    frame_pause 5 running_at (frame_rest t t_after) = Some sleeps /\
    (length sleeps <= 4)%nat /\
    Forall (fun d => 0 < d /\ d <= sleep_step) sleeps /\
    (frame_rest t t_after <= 0 -> sleeps = []) /\
    (forall j, running_at j = false -> (length sleeps <= j)%nat).
Proof.
  intros Ht. unfold frame_pause.
  destruct (Qgtb (frame_rest t t_after) 0) eqn:E.
  - apply Qgtb_true in E.
    destruct (@sleep_loop_spec 4 5 running_at 0 (frame_rest t t_after))
      as (sleeps & Hrun & Hlen & Hall & Hnil & Hstop).
    { change (inject_Z (Z.of_nat 4)) with 4. unfold frame_rest in *. lra. }
    { lia. }
    exists sleeps. split; [exact Hrun|]. split; [exact Hlen|]. split; [exact Hall|].
    split; [exact Hnil|].
    intros j Hj. specialize (Hstop j ltac:(lia) Hj). lia.
  - exists []. split; [reflexivity|]. split; [simpl; lia|]. split; [constructor|].
    split; [reflexivity|]. intros; simpl; lia.
Qed.

(** * Examples of the further properties *)

Lemma quiet_note (n : nat) : quiet_callback (note n).
Proof.
  intros body H. inversion H. subst. intros w. constructor.
Qed.

Lemma ascending_three_queued : ascending three_queued.
Proof.
  unfold three_queued. repeat constructor; unfold before; simpl; lra.
Qed.

Lemma drain_takes_the_due_front_witness :
  fst (drain 102 three_queued) = [mkMessage 2 0 0 (note 2); mkMessage 1 101 0 (note 1)] /\
  three_queued = fst (drain 102 three_queued) ++ snd (drain 102 three_queued) /\
  Forall (fun m => due 102 m = false) (snd (drain 102 three_queued)).
Proof.
  destruct (@drain_takes_the_due_front (list nat) 102 three_queued
              ascending_three_queued ltac:(lra))
    as (_ & Hrest & _ & Hfront & _).
  split; [vm_compute; reflexivity|]. split; [exact Hfront|exact Hrest].
Defined.


Lemma Post_then_Cancel_restores_the_queue_witness :
  exists i s1,
    Post (note 2) 5 0 one_queued = Some (i, s1) /\
    In (new_message (note 2) 5 0 one_queued) (queue (mt s1)) /\
    queue (Cancel i (mt s1)) = queue (mt one_queued) /\
    forall t, Forall (fun x => id x <> i) (fst (drain t (queue (Cancel i (mt s1))))).
Proof.
  apply (@Post_then_Cancel_restores_the_queue (list nat) (note 2) 5 0 one_queued).
  - lra.
  - repeat constructor. simpl. lia.
Defined.

Lemma posted_message_is_due_from_its_time_witness :
  exists i s1,
    Post (note 2) 5 0 one_queued = Some (i, s1) /\
    (~ 5 == 0 -> ~ deliverAt (new_message (note 2) 5 0 one_queued) == 0) /\
    (In (new_message (note 2) 5 0 one_queued) (fst (drain 105 (queue (mt s1)))) <->
     (5 == 0 \/ deliverAt (new_message (note 2) 5 0 one_queued) <= 105)).
Proof.
  apply (@posted_message_is_due_from_its_time (list nat) (note 2) 5 0 one_queued 105).
  - simpl. lra.
  - lra.
Defined.

Lemma wakeup_with_nothing_due_changes_nothing_witness :
  Run_body one_queued = Some (Continue, one_queued) /\
  Run_iteration one_queued = Some one_queued.
Proof.
  apply (@wakeup_with_nothing_due_changes_nothing (list nat) one_queued).
  - vm_compute. reflexivity.
  - vm_compute. reflexivity.
  - repeat constructor.
Defined.

Lemma stopped_scheduler_never_delivers_witness :
  exists s',
    exec [EvPost (note 2) 0 0; EvRun; EvElapse 1; EvRun] stopped_then_posted = Some s' /\
    map id (queue (mt s')) = [1%N; 2%N] /\
    running (mt s') = false /\ delivered s' = [] /\ env s' = [] /\ exited s' = true.
Proof.
  eexists.
  edestruct (@stopped_scheduler_never_delivers (list nat)
               [EvPost (note 2) 0 0; EvRun; EvElapse 1; EvRun] stopped_then_posted)
    as (Hr & Hd & He & Hx).
  - vm_compute. reflexivity.
  - vm_compute. reflexivity.
  - split; [vm_compute; reflexivity|]. split; [vm_compute; reflexivity|].
    split; [exact Hr|]. split; [exact Hd|]. split; [exact He|].
    apply Hx. right. left. reflexivity.
Defined.

Lemma queue_ids_stay_distinct_witness :
  exists s',
    exec [EvPost (note 2) 0 1; EvRun; EvPost (note 3) 1 1; EvElapse 2; EvRun] one_queued
      = Some s' /\
    env s' = [2%nat; 1%nat; 2%nat; 3%nat] /\
    NoDup (map id (queue (mt s'))) /\
    Forall (fun m => (id m < lastMessageID (mt s'))%N) (queue (mt s')).
Proof.
  eexists. split; [vm_compute; reflexivity|]. split; [vm_compute; reflexivity|].
  apply (@queue_ids_stay_distinct (list nat)
           [EvPost (note 2) 0 1; EvRun; EvPost (note 3) 1 1; EvElapse 2; EvRun]
           one_queued).
  - repeat constructor. simpl. tauto.
  - repeat constructor; simpl; try lia; exact (@quiet_note _).
  - repeat constructor; simpl; exact (@quiet_note _).
  - vm_compute. reflexivity.
  - vm_compute. reflexivity.
Defined.

Lemma cancelled_message_is_never_delivered_witness :
  exists s1 s' log,
    Post (note 2) 0 0 one_queued = Some (2%N, s1) /\
    exec [EvCancel 2; EvRun; EvElapse 5; EvRun] s1 = Some s' /\
    env s' = [1%nat] /\
    delivered s' = delivered one_queued ++ log /\
    Forall (fun d => id (fst d) <> 2%N) log.
Proof.
  eexists. eexists.
  edestruct (@cancelled_message_is_never_delivered (list nat) (note 2) 0 0
               [EvRun; EvElapse 5; EvRun] one_queued)
    as (log & Hlog & Hok).
  - repeat constructor. simpl. tauto.
  - repeat constructor; simpl; try lia; exact (@quiet_note _).
  - repeat constructor.
  - vm_compute. reflexivity.
  - vm_compute. reflexivity.
  - vm_compute. reflexivity.
  - exists log. split; [vm_compute; reflexivity|]. split; [vm_compute; reflexivity|].
    split; [vm_compute; reflexivity|]. split; [exact Hlog|exact Hok].
Defined.

Lemma one_shot_message_is_delivered_once_witness :
  exists s1 s' later,
    Run_iteration (advance 1 one_queued) = Some s1 /\
    map (fun d => id (fst d)) (delivered s1) = [1%N] /\
    exec [EvPost (note 2) 0 0; EvRun; EvElapse 1; EvRun] s1 = Some s' /\
    env s' = [1%nat; 2%nat] /\
    delivered s' = delivered s1 ++ later /\
    Forall (fun d => id (fst d) <> 1%N) later.
Proof.
  eexists. eexists.
  edestruct (@one_shot_message_is_delivered_once (list nat)
               [EvPost (note 2) 0 0; EvRun; EvElapse 1; EvRun]
               (advance 1 one_queued))
    with (m := mkMessage 1 101 0 (note 1))
         (log := [(mkMessage 1 101 0 (note 1), 101)])
    as (_ & later & Hlater & Hok).
  - repeat constructor. simpl. tauto.
  - repeat constructor; simpl; try lia; exact (@quiet_note _).
  - vm_compute. reflexivity.
  - vm_compute. reflexivity.
  - left. reflexivity.
  - simpl. lra.
  - repeat constructor; simpl; exact (@quiet_note _).
  - vm_compute. reflexivity.
  - vm_compute. reflexivity.
  - exists later. split; [vm_compute; reflexivity|]. split; [vm_compute; reflexivity|].
    split; [vm_compute; reflexivity|]. split; [vm_compute; reflexivity|].
    split; [exact Hlater|exact Hok].
Defined.

Lemma frame_pause_is_short_and_interruptible_witness :
  exists sleeps,
    frame_pause 5 (fun k => Nat.ltb k 2) (frame_rest 0 (7 # 1000)) = Some sleeps /\
    sleeps = [sleep_step; sleep_step] /\
    (length sleeps <= 2)%nat /\
    Forall (fun d => 0 < d /\ d <= sleep_step) sleeps.
Proof.
  destruct (@frame_pause_is_short_and_interruptible (fun k => Nat.ltb k 2) 0 (7 # 1000)
              ltac:(lra))
    as (sleeps & Hrun & _ & Hall & _ & Hstop).
  exists sleeps. split; [exact Hrun|]. split.
  - vm_compute in Hrun. inversion Hrun. reflexivity.
  - split; [apply Hstop; reflexivity|exact Hall].
Defined.
